(** * gamelib.js: frame scheduler, scene state machine, actors, toroidal blit

    A shallow embedding of [scripts/gamelib.js] (the game class library of the
    Asteroids demo) and the properties of its frame loop, scene transitions,
    sprite animation, effect decay and wrap-around rendering.

    Numbers.  JavaScript numbers are modelled as exact rationals ([Q]);
    millisecond timestamps returned by [Date.now()] and the frame counter are
    integers ([Z]).  Rounding of IEEE doubles is therefore outside that
    model; where a result turns on it (the decay of an effect, whose quotient
    [val / lifespan] is rounded before it is multiplied back), the function
    is also embedded over binary64 ([Double], [DoubleEffect]).
    The integer idioms of the source ([x << 6], [~~x]) are modelled on [Z]
    with their 32-bit wrap-around written out.

    State.  [GameHandler] is a singleton and [Game.Main] has one instance;
    scenes are objects referred to from several places, so they live in a
    heap and are named by references.  A scene owns its interval.  The frame
    code is written in a state monad over that world; a thrown TypeError
    (a method call on [null] or [undefined]) aborts the call and is the
    monad's failure.

    Environment.  [Date.now()], the game's [isGameOver()], the scenes'
    [isComplete()] and the interval renderer are supplied from outside; a
    frame takes their answers as a record.  The hooks a game may override
    are the base-class ones of the source: [onInitScene] resets the
    interval, the render hooks do nothing; every call to a hook is recorded
    in the order it happens. *)

From Stdlib Require Import ZArith QArith Qround Lia Lqa Bool List SpecFloat.
From stdpp Require Import base option list gmap.
Import ListNotations.

Local Open Scope Z_scope.

(** ** JavaScript number idioms *)

Module JS.

(** Truncation toward zero (the integer part ToInt32 starts from). *)
Definition Qtrunc (q : Q) : Z := Z.quot (Qnum q) (Zpos (Qden q)).

(** Reduction of an integer to the signed 32-bit range. *)
Definition wrap32 (z : Z) : Z := (z + 2 ^ 31) mod 2 ^ 32 - 2 ^ 31.

(** [ToInt32] of a finite number. *)
Definition ToInt32 (q : Q) : Z := wrap32 (Qtrunc q).

(** [a << n] on an int32 operand: the count is masked to five bits and the
    result wraps to int32. *)
Definition shl (a n : Z) : Z := wrap32 (Z.shiftl a (Z.land n 31)).

(** [~~x] *)
Definition double_tilde (q : Q) : Z := ToInt32 q.

(** [x < y] on numbers *)
Definition ltb (x y : Q) : bool := negb (Qle_bool y x).

(** [x >= y] on numbers *)
Definition geb (x y : Q) : bool := Qle_bool y x.

(** [x > y] on numbers *)
Definition gtb (x y : Q) : bool := negb (Qle_bool x y).

End JS.

(** ** JavaScript numbers as IEEE 754 binary64 *)

Module Double.

Definition double := spec_float.

Definition prec : Z := 53.
Definition emax : Z := 1024.

(** The double nearest to an integer. *)
Definition of_Z (n : Z) : double := binary_normalize prec emax n 0 false.

(** [x - y], [x * y], [x / y], rounded to nearest, ties to even. *)
Definition sub : double -> double -> double := SFsub prec emax.
Definition mul : double -> double -> double := SFmul prec emax.
Definition div : double -> double -> double := SFdiv prec emax.

(** [x < y], [x > y], [x <= y]: false when either side is NaN. *)
Definition ltb : double -> double -> bool := SFltb.
Definition gtb (x y : double) : bool := SFltb y x.
Definition leb : double -> double -> bool := SFleb.

(** The literal [0]. *)
Definition zero : double := S754_zero false.

Definition is_nan (x : double) : bool :=
  match x with
  | S754_nan => true
  | _ => false
  end.

(** Neither NaN nor infinite. *)
Definition is_finite (x : double) : bool :=
  match x with
  | S754_zero _ | S754_finite _ _ _ => true
  | _ => false
  end.

(** The number [0] with the sign of the literal. *)
Definition is_zero (x : double) : bool :=
  match x with
  | S754_zero false => true
  | _ => false
  end.

(** Finite and greater than zero. *)
Definition is_positive (x : double) : bool :=
  match x with
  | S754_finite false _ _ => true
  | _ => false
  end.

End Double.

(** ** The canvas 2D context, as the sequence of calls it received *)

Definition Image := nat.

Record DrawImage := mkDraw {
  d_image : Image;
  d_sx : Q; d_sy : Q; d_sw : Q; d_sh : Q;
  d_dx : Q; d_dy : Q; d_dw : Q; d_dh : Q
}.

Inductive CanvasOp :=
| CtxSave
| CtxRestore
| CtxDrawImage (d : DrawImage).

Definition Ctx := list CanvasOp.

(** [ctx.drawImage(image, sx, sy, sw, sh, dx, dy, dw, dh)] *)
Definition drawImage (ctx : Ctx) (image : Image) (sx sy sw sh dx dy dw dh : Q) : Ctx :=
  ctx ++ [CtxDrawImage (mkDraw image sx sy sw sh dx dy dw dh)].

(** ** GameHandler: the singleton holding the clock and the play field *)

Record GameHandlerT := mkGameHandler {
  paused : bool;
  width : Q;
  height : Q;
  frameCount : Z;
  frameMultipler : Q;
  frameStart : Z;
  maxfps : Z
}.

(** Ideal frame interval: [FPSMS: 1000/60]. *)
Definition FPSMS : Q := (1000 / 60)%Q.


(** ** Game.Util.renderImage *)

Module Util.

Definition renderImage (gh : GameHandlerT) (ctx : Ctx) (image : Image)
    (nx ny ns x y s : Q) : Ctx :=
  let ctx := drawImage ctx image nx ny ns ns x y s s in
  let ctx := if JS.ltb x 0
             then drawImage ctx image nx ny ns ns (width gh + x) y s s
             else ctx in
  let ctx := if JS.ltb y 0
             then drawImage ctx image nx ny ns ns x (height gh + y) s s
             else ctx in
  let ctx := if JS.ltb x 0 && JS.ltb y 0
             then drawImage ctx image nx ny ns ns (width gh + x) (height gh + y) s s
             else ctx in
  let ctx := if JS.gtb (x + s) (width gh)
             then drawImage ctx image nx ny ns ns (x - width gh) y s s
             else ctx in
  let ctx := if JS.gtb (y + s) (height gh)
             then drawImage ctx image nx ny ns ns x (y - height gh) s s
             else ctx in
  let ctx := if JS.gtb (x + s) (width gh) && JS.gtb (y + s) (height gh)
             then drawImage ctx image nx ny ns ns (x - width gh) (y - height gh) s s
             else ctx in
  ctx.

End Util.

(** ** Actors *)

Record Vector := mkVector { vx : Q; vy : Q }.

(** *** Game.SpriteActor *)

Record SpriteActor := mkSpriteActor {
  sa_position : Vector;
  sa_vector : Vector;
  frameSize : Q;
  animImage : Image;
  animLength : Q;
  animForward : bool;
  animSpeed : Q;
  animFrame : Q
}.

Definition set_animFrame (a : SpriteActor) (f : Q) : SpriteActor :=
  {| sa_position := sa_position a; sa_vector := sa_vector a;
     frameSize := frameSize a; animImage := animImage a;
     animLength := animLength a; animForward := animForward a;
     animSpeed := animSpeed a; animFrame := f |}.

(** The source-tile Y offset [this.animFrame << 6]. *)
Definition spriteSourceY (a : SpriteActor) : Z :=
  JS.shl (JS.ToInt32 (animFrame a)) 6.

(** [renderSprite(ctx, x, y, s)]: blits the current frame, then steps the
    animation by [animSpeed * GameHandler.frameMultipler]. *)
Definition renderSprite (gh : GameHandlerT) (ctx : Ctx) (a : SpriteActor)
    (x y s : Q) : Ctx * SpriteActor :=
  let ctx := Util.renderImage gh ctx (animImage a)
               0 (inject_Z (spriteSourceY a)) (frameSize a) x y s in
  let a :=
    if animForward a then
      let a := set_animFrame a (animFrame a + animSpeed a * frameMultipler gh) in
      if JS.geb (animFrame a) (animLength a) then set_animFrame a 0 else a
    else
      let a := set_animFrame a (animFrame a - animSpeed a * frameMultipler gh) in
      if JS.ltb (animFrame a) 0 then set_animFrame a (animLength a - 1) else a in
  (ctx, a).

(** *** Game.EffectActor *)

Record EffectActor := mkEffectActor {
  ea_position : Vector;
  ea_vector : Vector;
  lifespan : Q;
  effectStart : Z
}.

(** The constructor captures the clock's last frame start. *)
Definition EffectActor_new (gh : GameHandlerT) (p v : Vector) (lifespan : Q) : EffectActor :=
  {| ea_position := p; ea_vector := v; lifespan := lifespan;
     effectStart := frameStart gh |}.

Definition expired (gh : GameHandlerT) (e : EffectActor) : bool :=
  JS.gtb (inject_Z (frameStart gh - effectStart e)) (lifespan e).

(** [effectValue(val)].  The division is by [lifespan]; a zero lifespan makes
    the JavaScript intermediate non-finite, which the rational model does not
    represent, so results about this function assume a non-zero lifespan. *)
Definition effectValue (gh : GameHandlerT) (e : EffectActor) (val : Q) : Q :=
  let result := (val - (val / lifespan e) * inject_Z (frameStart gh - effectStart e))%Q in
  if JS.ltb result 0 then 0%Q
  else if JS.gtb result val then val
  else result.

(** The same two methods over doubles, every operation rounded as the source
    rounds it; [frameStart] is [GameHandler.frameStart]. *)
Module DoubleEffect.

Record EffectActor := mkEffectActor {
  lifespan : Double.double;
  effectStart : Double.double
}.

Definition expired (frameStart : Double.double) (e : EffectActor) : bool :=
  Double.gtb (Double.sub frameStart (effectStart e)) (lifespan e).

Definition effectValue (frameStart : Double.double) (e : EffectActor)
    (val : Double.double) : Double.double :=
  let result :=
    Double.sub val
      (Double.mul (Double.div val (lifespan e))
         (Double.sub frameStart (effectStart e))) in
  if Double.ltb result Double.zero then Double.zero
  else if Double.gtb result val then val
  else result.

End DoubleEffect.

(** ** Scenes and intervals *)

(** *** Game.Interval *)

Record Interval := mkInterval {
  label : String.string;
  framecounter : Z;
  complete : bool
}.

(** [new Game.Interval(label, intervalRenderer)]; the renderer callback is
    supplied by the game and is part of the frame's environment below. *)
Definition Interval_new (l : String.string) : Interval :=
  {| label := l; framecounter := 0; complete := false |}.

Definition Interval_reset (i : Interval) : Interval :=
  {| label := label i; framecounter := 0; complete := false |}.

(** *** Game.Scene

    [interval] is [null] ([None]) or an Interval object.  Scenes are objects
    shared between the [scenes] array, [endScene] and [currentScene]; they
    live in a heap and are named by references. *)

Record Scene := mkScene {
  playable : bool;
  interval : option Interval
}.

Definition SceneRef := nat.

Definition set_interval (sc : Scene) (i : Interval) : Scene :=
  {| playable := playable sc; interval := Some i |}.

(** [interval === null || interval.complete] *)
Definition interval_null_or_complete (sc : Scene) : bool :=
  match interval sc with
  | None => true
  | Some i => complete i
  end.

(** *** Game.Main *)

Record Main := mkMain {
  scenes : list SceneRef;
  endScene : option SceneRef;
  currentScene : option SceneRef;
  sceneIndex : Z
}.

Definition set_sceneIndex (m : Main) (i : Z) : Main :=
  {| scenes := scenes m; endScene := endScene m;
     currentScene := currentScene m; sceneIndex := i |}.

Definition set_currentScene (m : Main) (r : SceneRef) : Main :=
  {| scenes := scenes m; endScene := endScene m;
     currentScene := Some r; sceneIndex := sceneIndex m |}.

(** A game assembled from a scene list and an end scene, with the prototype's
    [currentScene: null] and [sceneIndex: -1]. *)
Definition Main_new (ss : list SceneRef) (e : option SceneRef) : Main :=
  {| scenes := ss; endScene := e; currentScene := None; sceneIndex := -1 |}.

(** ** The world: GameHandler, the game, the scene heap and what was called *)

(** Hook and scheduler calls, in the order they happen. *)
Inductive Call :=
| OnInitScene (r : SceneRef)
| OnBeforeRenderScene (r : SceneRef)
| OnRenderGame
| OnRenderScene (r : SceneRef)
| IntervalRenderer (r : SceneRef)
| RequestAnimFrame (frameOffset : Z).

Record World := mkWorld {
  handler : GameHandlerT;
  game : option Main;               (* GameHandler.game *)
  heap : gmap SceneRef Scene;
  canvas : Ctx;                     (* GameHandler.canvas.getContext('2d') *)
  calls : list Call;
  pending : nat                     (* callbacks scheduled and not yet run *)
}.

(** What the surrounding game and the platform answer during one frame. *)
Record Env := mkEnv {
  Date_now_start : Z;                               (* Date.now() on entry *)
  Date_now_end : Z;                                 (* Date.now() for frameOffset *)
  isGameOver : bool;                                (* this.isGameOver() *)
  isComplete : SceneRef -> bool;                    (* scene.isComplete() *)
  intervalRenderer : SceneRef -> Interval -> Interval
    (* what the interval's renderer does to the interval it is handed *)
}.

(** The prototype's defaults: [isGameOver] and [isComplete] return false. *)
Definition Env_default (t0 t1 : Z) : Env :=
  {| Date_now_start := t0; Date_now_end := t1; isGameOver := false;
     isComplete := fun _ => false; intervalRenderer := fun _ i => i |}.

(** *** A state monad with failure (a thrown TypeError aborts the call) *)

Definition M (A : Type) : Type := World -> option (A * World).

Definition ret {A} (a : A) : M A := fun w => Some (a, w).

Definition bind {A B} (m : M A) (k : A -> M B) : M B :=
  fun w => match m w with
           | Some (a, w') => k a w'
           | None => None
           end.

Definition throw {A} : M A := fun _ => None.

Notation "'let*' x ':=' m 'in' k" := (bind m (fun x => k))
  (at level 10, x name, m at level 100, k at level 200).
Notation "m ';;;' k" := (bind m (fun _ => k))
  (at level 100, k at level 200, right associativity).

Definition exec {A} (m : M A) (w : World) : option World :=
  match m w with
  | Some (_, w') => Some w'
  | None => None
  end.

Definition get_handler : M GameHandlerT := fun w => Some (handler w, w).

Definition put_handler (gh : GameHandlerT) : M unit :=
  fun w => Some (tt, {| handler := gh; game := game w; heap := heap w;
                        canvas := canvas w; calls := calls w; pending := pending w |}).

(** [GameHandler.game], which must be an object to be used. *)
Definition get_game : M Main :=
  fun w => match game w with
           | Some g => Some (g, w)
           | None => None
           end.

Definition put_game (g : Main) : M unit :=
  fun w => Some (tt, {| handler := handler w; game := Some g; heap := heap w;
                        canvas := canvas w; calls := calls w; pending := pending w |}).

Definition get_scene (r : SceneRef) : M Scene :=
  fun w => match heap w !! r with
           | Some sc => Some (sc, w)
           | None => None
           end.

Definition put_scene (r : SceneRef) (sc : Scene) : M unit :=
  fun w => Some (tt, {| handler := handler w; game := game w;
                        heap := <[r := sc]> (heap w);
                        canvas := canvas w; calls := calls w; pending := pending w |}).

Definition call (c : Call) : M unit :=
  fun w => Some (tt, {| handler := handler w; game := game w; heap := heap w;
                        canvas := canvas w; calls := calls w ++ [c];
                        pending := pending w |}).

Definition canvas_op (o : CanvasOp) : M unit :=
  fun w => Some (tt, {| handler := handler w; game := game w; heap := heap w;
                        canvas := canvas w ++ [o]; calls := calls w;
                        pending := pending w |}).

(** [requestAnimFrame(GameHandler.start, frameOffset)] *)
Definition requestAnimFrame (frameOffset : Z) : M unit :=
  fun w => Some (tt, {| handler := handler w; game := game w; heap := heap w;
                        canvas := canvas w;
                        calls := calls w ++ [RequestAnimFrame frameOffset];
                        pending := S (pending w) |}).

(** [this.scenes[i]], used as an object right away: an index outside the
    array yields [undefined] and the method call on it throws. *)
Definition scenes_at (i : Z) : M SceneRef :=
  let* this := get_game in
  if i <? 0 then throw
  else match scenes this !! Z.to_nat i with
       | Some r => ret r
       | None => throw
       end.

Definition get_endScene : M SceneRef :=
  let* this := get_game in
  match endScene this with
  | Some r => ret r
  | None => throw
  end.

Definition put_sceneIndex (i : Z) : M unit :=
  let* this := get_game in put_game (set_sceneIndex this i).

(** [Game.Scene.prototype.onInitScene]: resets the interval when there is one. *)
Definition onInitScene (r : SceneRef) : M unit :=
  let* sc := get_scene r in
  call (OnInitScene r) ;;;
  match interval sc with
  | Some i => put_scene r (set_interval sc (Interval_reset i))
  | None => ret tt
  end.

(** ** GameHandler field updates *)

Definition set_paused (gh : GameHandlerT) (b : bool) : GameHandlerT :=
  {| paused := b; width := width gh; height := height gh;
     frameCount := frameCount gh; frameMultipler := frameMultipler gh;
     frameStart := frameStart gh; maxfps := maxfps gh |}.

Definition set_frameCount (gh : GameHandlerT) (n : Z) : GameHandlerT :=
  {| paused := paused gh; width := width gh; height := height gh;
     frameCount := n; frameMultipler := frameMultipler gh;
     frameStart := frameStart gh; maxfps := maxfps gh |}.

Definition set_frameMultipler (gh : GameHandlerT) (m : Q) : GameHandlerT :=
  {| paused := paused gh; width := width gh; height := height gh;
     frameCount := frameCount gh; frameMultipler := m;
     frameStart := frameStart gh; maxfps := maxfps gh |}.

Definition set_frameStart (gh : GameHandlerT) (t : Z) : GameHandlerT :=
  {| paused := paused gh; width := width gh; height := height gh;
     frameCount := frameCount gh; frameMultipler := frameMultipler gh;
     frameStart := t; maxfps := maxfps gh |}.

Definition set_maxfps (gh : GameHandlerT) (n : Z) : GameHandlerT :=
  {| paused := paused gh; width := width gh; height := height gh;
     frameCount := frameCount gh; frameMultipler := frameMultipler gh;
     frameStart := frameStart gh; maxfps := n |}.

(** ** Game.Main.prototype.frame *)

(** Rules 1 and 2: [if (currentScene === null) ... else if (this.isGameOver()) ...] *)
Definition resolve_entry (env : Env) : M SceneRef :=
  let* this := get_game in
  match currentScene this with
  | None =>
      put_sceneIndex 0 ;;;
      let* currentScene := scenes_at 0 in
      onInitScene currentScene ;;;
      ret currentScene
  | Some currentScene =>
      if isGameOver env then
        put_sceneIndex (-1) ;;;
        let* currentScene := get_endScene in
        onInitScene currentScene ;;;
        ret currentScene
      else ret currentScene
  end.

(** Rule 3: the separate [if] that advances past a completed scene. *)
Definition resolve_advance (env : Env) (currentScene : SceneRef) : M SceneRef :=
  let* sc := get_scene currentScene in
  if interval_null_or_complete sc && isComplete env currentScene then
    let* this := get_game in
    put_sceneIndex (sceneIndex this + 1) ;;;
    let* this := get_game in
    let* currentScene :=
      if sceneIndex this <? Z.of_nat (length (scenes this))
      then scenes_at (sceneIndex this)
      else (put_sceneIndex 0 ;;; scenes_at 0) in
    onInitScene currentScene ;;;
    ret currentScene
  else ret currentScene.

(** The render pass between [ctx.save()] and [ctx.restore()]. *)
Definition render_pass (env : Env) (currentScene : SceneRef) : M unit :=
  canvas_op CtxSave ;;;
  let* sc := get_scene currentScene in
  (if interval_null_or_complete sc then
     call (OnBeforeRenderScene currentScene) ;;;
     call OnRenderGame ;;;
     call (OnRenderScene currentScene)
   else
     call OnRenderGame ;;;
     call (IntervalRenderer currentScene) ;;;
     match interval sc with
     | Some i => put_scene currentScene
                   (set_interval sc (intervalRenderer env currentScene i))
     | None => ret tt
     end) ;;;
  canvas_op CtxRestore.

(** The timing block that follows the render pass. *)
Definition update_clock (frameStart' : Z) : M unit :=
  let* gh := get_handler in
  let gh := set_frameCount gh (frameCount gh + 1) in
  let frameInterval := frameStart' - frameStart gh in
  let frameInterval := if frameInterval =? 0 then 1 else frameInterval in
  let gh := if Z.rem (frameCount gh) 16 =? 0
            then set_maxfps gh (JS.double_tilde (1000 / inject_Z frameInterval))
            else gh in
  let gh := set_frameMultipler gh (inject_Z frameInterval / FPSMS) in
  let gh := set_frameStart gh frameStart' in
  put_handler gh.

Definition frame (env : Env) : M unit :=
  let frameStart' := Date_now_start env in
  let* currentScene := resolve_entry env in
  let* currentScene := resolve_advance env currentScene in
  render_pass env currentScene ;;;
  (let* this := get_game in put_game (set_currentScene this currentScene)) ;;;
  update_clock frameStart' ;;;
  let frameOffset :=
    JS.double_tilde (FPSMS - inject_Z (Date_now_end env - frameStart')) in
  let* gh := get_handler in
  if negb (paused gh) then requestAnimFrame frameOffset else ret tt.

(** ** GameHandler.start and GameHandler.pause *)

(** [start(game)]: [arg] is [Some g] when the argument is a Game.Main
    instance, [None] when it is anything else (the scheduler's callback
    argument). *)
Definition start (now : Z) (arg : option Main) (env : Env) : M unit :=
  match arg with
  | Some g =>
      put_game g ;;;
      let* gh := get_handler in
      put_handler (set_frameStart gh now)
  | None => ret tt
  end ;;;
  frame env.

Definition pause (now : Z) (env : Env) : M unit :=
  let* gh := get_handler in
  if paused gh then
    put_handler (set_paused gh false) ;;;
    let* gh := get_handler in
    put_handler (set_frameStart gh now) ;;;
    frame env
  else
    put_handler (set_paused gh true).

(** A scheduled callback runs: the platform calls [GameHandler.start] with
    its own argument. *)
Definition tick (env : Env) : M unit :=
  fun w =>
    start 0 None env
      {| handler := handler w; game := game w; heap := heap w;
         canvas := canvas w; calls := calls w; pending := Nat.pred (pending w) |}.

(** What can happen to a world: a scheduled callback fires, or [pause()] is
    called (from a key handler, between frames). *)
Inductive step : World -> World -> Prop :=
| step_tick env w w' :
    (0 < pending w)%nat -> exec (tick env) w = Some w' -> step w w'
| step_pause now env w w' :
    exec (pause now env) w = Some w' -> step w w'.

(** ** Vocabulary used to state the properties *)

(** *** Toroidal blit *)

(** The blit of a source tile to [(dx, dy)] with size [s]. *)
Definition blit (image : Image) (nx ny ns dx dy s : Q) : CanvasOp :=
  CtxDrawImage (mkDraw image nx ny ns ns dx dy s s).

(** The destination square lies within the field. *)
Definition fully_inside (gh : GameHandlerT) (x y s : Q) : Prop :=
  (0 <= x /\ 0 <= y /\ x + s <= width gh /\ y + s <= height gh)%Q.

(** A copy of the primary blit displaced by the field width and/or height. *)
Definition shifted_copy (gh : GameHandlerT) (image : Image) (nx ny ns x y s : Q)
    (o : CanvasOp) : Prop :=
  let W := width gh in
  let H := height gh in
  o = blit image nx ny ns (W + x) y s \/
  o = blit image nx ny ns x (H + y) s \/
  o = blit image nx ny ns (W + x) (H + y) s \/
  o = blit image nx ny ns (x - W) y s \/
  o = blit image nx ny ns x (y - H) s \/
  o = blit image nx ny ns (x - W) (y - H) s.

(** A play field of the given size, all else as in the object literal. *)
Definition field (W H : Q) : GameHandlerT :=
  {| paused := false; width := W; height := H; frameCount := 0;
     frameMultipler := 1%Q; frameStart := 0; maxfps := 0 |}.

(** *** Sprite and effect actors *)

(** A sprite on a given animation strip, unit speed, at frame [f]. *)
Definition sprite (len : Q) (forward : bool) (speed f : Q) : SpriteActor :=
  {| sa_position := mkVector 0 0; sa_vector := mkVector 0 0;
     frameSize := 64%Q; animImage := 0%nat; animLength := len;
     animForward := forward; animSpeed := speed; animFrame := f |}.

(** The time the effect has lived, as [effectValue] and [expired] compute it. *)
Definition effectAge (gh : GameHandlerT) (e : EffectActor) : Q :=
  inject_Z (frameStart gh - effectStart e).

(** [val - (val / lifespan) * (frameStart - effectStart)] in doubles, before
    [effectValue] crops it. *)
Definition effectDifference (frameStart : Double.double) (e : DoubleEffect.EffectActor)
    (val : Double.double) : Double.double :=
  Double.sub val
    (Double.mul (Double.div val (DoubleEffect.lifespan e))
       (Double.sub frameStart (DoubleEffect.effectStart e))).

(** An effect of lifespan [l] ms created at [start] ms, and its value [v] at
    time [now]; all three integers. *)
Definition effect_at (l start : Z) : DoubleEffect.EffectActor :=
  {| DoubleEffect.lifespan := Double.of_Z l;
     DoubleEffect.effectStart := Double.of_Z start |}.

Definition effectValue_at (l start now v : Z) : Double.double :=
  DoubleEffect.effectValue (Double.of_Z now) (effect_at l start) (Double.of_Z v).

(** A clock whose last frame started at [t]. *)
Definition clock_at (t : Z) : GameHandlerT :=
  {| paused := false; width := 0%Q; height := 0%Q; frameCount := 0;
     frameMultipler := 1%Q; frameStart := t; maxfps := 0 |}.

(** *** Frames *)

Definition is_init (c : Call) : option SceneRef :=
  match c with
  | OnInitScene r => Some r
  | _ => None
  end.

(** The scenes whose [onInitScene] a sequence of calls invokes, in order. *)
Definition inits (cs : list Call) : list SceneRef := omap is_init cs.

Definition is_schedule (c : Call) : option Z :=
  match c with
  | RequestAnimFrame o => Some o
  | _ => None
  end.

(** The scheduling requests in a sequence of calls. *)
Definition schedules (cs : list Call) : list Z := omap is_schedule cs.

(** The calls made between world [w] and a later world [w']. *)
Definition calls_since (w w' : World) : list Call :=
  drop (length (calls w)) (calls w').

(** The heap once [onInitScene] has run on [r]. *)
Definition heap_after_init (r : SceneRef) (h : gmap SceneRef Scene) : gmap SceneRef Scene :=
  match h !! r with
  | Some sc =>
      match interval sc with
      | Some i => <[r := set_interval sc (Interval_reset i)]> h
      | None => h
      end
  | None => h
  end.

(** The heap once the init hooks of [l] have run, first to last. *)
Definition heap_after_inits (l : list SceneRef) (h : gmap SceneRef Scene)
    : gmap SceneRef Scene :=
  fold_left (fun h r => heap_after_init r h) l h.

Definition in_heap (h : gmap SceneRef Scene) (r : SceneRef) : bool :=
  match h !! r with
  | Some _ => true
  | None => false
  end.

(** The scene index is the sentinel or a position of the scene list. *)
Definition index_ok (g : Main) : bool :=
  (sceneIndex g =? -1) ||
  ((0 <=? sceneIndex g) && (sceneIndex g <? Z.of_nat (length (scenes g)))).

(** A started game: at least one scene, an end scene, and every scene it
    refers to allocated. *)
Definition well_formed (w : World) : bool :=
  match game w with
  | None => false
  | Some g =>
      match scenes g with [] => false | _ :: _ => true end
      && forallb (in_heap (heap w)) (scenes g)
      && match endScene g with Some e => in_heap (heap w) e | None => false end
      && match currentScene g with Some c => in_heap (heap w) c | None => true end
      && index_ok g
  end.

(** Milliseconds between this frame's start and the previous one's. *)
Definition elapsed (env : Env) (w : World) : Z :=
  Date_now_start env - frameStart (handler w).

(** A world built from a handler, a game and a heap, nothing drawn or called. *)
Definition world_of (gh : GameHandlerT) (g : Main) (h : gmap SceneRef Scene) : World :=
  {| handler := gh; game := Some g; heap := h; canvas := []; calls := [];
     pending := 1 |}.

Definition plain_scene : Scene := {| playable := true; interval := None |}.

Definition timed_scene (done : bool) : Scene :=
  {| playable := true;
     interval := Some {| label := String.EmptyString; framecounter := 0;
                         complete := done |} |}.

(** What the game answers in a frame starting at [t]: whether it is over and
    whether scenes report completion. *)
Definition answers (t : Z) (over : bool) (done : SceneRef -> bool) : Env :=
  {| Date_now_start := t; Date_now_end := t; isGameOver := over;
     isComplete := done; intervalRenderer := fun _ i => i |}.

(** The world once the frame has entered scene [e] at index [i]: the index is
    stored and the scene's init hook has run. *)
Definition entered (w : World) (g : Main) (i : Z) (e : SceneRef) : World :=
  {| handler := handler w; game := Some (set_sceneIndex g i);
     heap := heap_after_init e (heap w); canvas := canvas w;
     calls := calls w ++ [OnInitScene e]; pending := pending w |}.

(** The index rule 3 moves to: one further, or 0 past the end of the list. *)
Definition next_index (g : Main) : Z :=
  if sceneIndex g + 1 <? Z.of_nat (length (scenes g)) then sceneIndex g + 1 else 0.

(** *** The scene transitions of one frame

    [entry env g i e]: rule 1 or rule 2 enters scene [e] and stores index [i]. *)
Inductive entry (env : Env) (g : Main) : Z -> SceneRef -> Prop :=
| entry_first e :
    currentScene g = None -> scenes g !! 0%nat = Some e ->
    entry env g 0 e
| entry_game_over e :
    currentScene g <> None -> isGameOver env = true -> endScene g = Some e ->
    entry env g (-1) e.

(** [transition env g h l f i]: on game [g] and heap [h], the frame invokes
    the init hooks of the scenes [l], in that order, and ends on scene [f]
    with index [i]. *)
Inductive transition (env : Env) (g : Main) (h : gmap SceneRef Scene) :
    list SceneRef -> SceneRef -> Z -> Prop :=
| transition_stay c sc :
    currentScene g = Some c -> isGameOver env = false ->
    h !! c = Some sc ->
    interval_null_or_complete sc && isComplete env c = false ->
    transition env g h [] c (sceneIndex g)
| transition_advance c sc f :
    currentScene g = Some c -> isGameOver env = false ->
    h !! c = Some sc ->
    interval_null_or_complete sc && isComplete env c = true ->
    scenes g !! Z.to_nat (next_index g) = Some f ->
    transition env g h [f] f (next_index g)
| transition_enter i e sc :
    entry env g i e ->
    h !! e = Some sc ->
    (interval sc <> None \/ isComplete env e = false) ->
    transition env g h [e] e i
| transition_enter_advance i e sc f :
    entry env g i e ->
    h !! e = Some sc ->
    interval sc = None -> isComplete env e = true ->
    scenes g !! Z.to_nat (next_index (set_sceneIndex g i)) = Some f ->
    transition env g h [e; f] f (next_index (set_sceneIndex g i)).

(** The index rules 1 and 2 leave behind: 0 after rule 1, the sentinel after
    rule 2, the stored index when neither applies. *)
Definition index_after_entry (env : Env) (g : Main) : Z :=
  match currentScene g with
  | None => 0
  | Some _ => if isGameOver env then -1 else sceneIndex g
  end.

(** The scene rule 3 is tested on: the one rule 1 or rule 2 has just entered
    ([entered] holds it, or is empty), else the scene that was current. *)
Definition resolved (g : Main) (entered : list SceneRef) : option SceneRef :=
  match entered with
  | e :: _ => Some e
  | [] => currentScene g
  end.

(** *** Example worlds *)

(** Scenes 0 and 1 in sequence and end scene 2, none with an interval. *)
Definition demo_heap : gmap SceneRef Scene :=
  <[0%nat := plain_scene]>
    (<[1%nat := plain_scene]> (<[2%nat := plain_scene]> ∅)).

Definition demo_game : Main := Main_new [0%nat; 1%nat] (Some 2%nat).

(** The demo game on a given scene, with the clock's last frame at [t]. *)
Definition demo_world (t : Z) (current : option SceneRef) (index : Z) : World :=
  world_of (clock_at t)
    {| scenes := [0%nat; 1%nat]; endScene := Some 2%nat;
       currentScene := current; sceneIndex := index |}
    demo_heap.

(** The same with an unfinished interval on scene 0. *)
Definition gated_world (t : Z) : World :=
  world_of (clock_at t)
    {| scenes := [0%nat; 1%nat]; endScene := Some 2%nat;
       currentScene := Some 0%nat; sceneIndex := 0 |}
    (<[0%nat := timed_scene false]> demo_heap).

(** *** Pausing *)

(** The world [pause()] leaves when called on a running game. *)
Definition suspended (w : World) : World :=
  {| handler := set_paused (handler w) true; game := game w; heap := heap w;
     canvas := canvas w; calls := calls w; pending := pending w |}.

(** The world in which [pause()], called at time [now] on a paused game,
    runs its frame: unpaused, the clock primed to [now]. *)
Definition resumed (w : World) (now : Z) : World :=
  {| handler := set_frameStart (set_paused (handler w) false) now;
     game := game w; heap := heap w; canvas := canvas w; calls := calls w;
     pending := pending w |}.

(** The demo game paused on scene 0, the last frame having started at [t]. *)
Definition paused_world (t : Z) : World :=
  world_of (set_paused (clock_at t) true)
    {| scenes := [0%nat; 1%nat]; endScene := Some 2%nat;
       currentScene := Some 0%nat; sceneIndex := 0 |}
    demo_heap.


(** * The rest of the library *)

(** ** GameHandler.init *)



(** ** The key handlers installed by the Game.Main constructor *)

Record KeyEvent := mkKeyEvent { keyCode : Z }.

(** The argument a handler is called with: [null], nothing at all
    ([undefined], as browsers that publish [window.event] do), or the event
    object. *)
Inductive EventArg :=
| EventNull
| EventUndefined
| EventObject (e : KeyEvent).

(** [if (event)] *)
Definition event_truthy (event : EventArg) : bool :=
  match event with
  | EventObject _ => true
  | _ => false
  end.

(** What a key handler calls, in order. *)
Inductive KeyCall :=
| OnKeyDownHandler (r : SceneRef) (keyCode : Z)
| OnKeyUpHandler (r : SceneRef) (keyCode : Z)
| PreventDefault
| StopPropagation.

(** [event === null ? window.event.keyCode : event.keyCode]; [window.event]
    may be undefined ([None]).  Only [null] selects [window.event]: reading
    [keyCode] from an undefined [event] throws. *)
Definition event_keyCode (window_event : option KeyEvent) (event : EventArg)
    : option Z :=
  match event with
  | EventNull => match window_event with
                 | Some e => Some (keyCode e)
                 | None => None
                 end
  | EventUndefined => None
  | EventObject e => Some (keyCode e)
  end.

(** The body shared by the two handlers: [method] is the scene method
    called, [handled] whether its result is truthy (the base class's methods
    return [undefined]). *)
Definition key_dispatch (method : SceneRef -> Z -> KeyCall)
    (handled : SceneRef -> Z -> bool)
    (window_event : option KeyEvent) (event : EventArg) (me : Main)
    : option (list KeyCall) :=
  match event_keyCode window_event event with
  | None => None
  | Some keyCode =>
      if negb (sceneIndex me =? -1) then
        if sceneIndex me <? 0 then None
        else match scenes me !! Z.to_nat (sceneIndex me) with
             | None => None
             | Some r =>
                 if handled r keyCode then
                   if event_truthy event
                   then Some [method r keyCode; PreventDefault; StopPropagation]
                   else Some [method r keyCode]
                 else Some [method r keyCode]
             end
      else Some []
  end.

(** [document.onkeydown] *)
Definition onkeydown := key_dispatch OnKeyDownHandler.

(** [document.onkeyup] *)
Definition onkeyup := key_dispatch OnKeyUpHandler.

(** ** Game.Util.renderImageRotated *)

(** The context calls of the rotated blit. *)
Inductive RotatedOp :=
| RSave
| RTranslate (tx ty : Q)
| RRotate (r : Q)
| RDrawImage (image : Image) (dx dy : Q)
| RRestore.

(** The local function [rf(tx, ty)]. *)
Definition rf (image : Image) (w2 h2 r : Q) (ctx : list RotatedOp) (tx ty : Q)
    : list RotatedOp :=
  ctx ++ [RSave; RTranslate tx ty; RRotate r; RDrawImage image (- w2) (- h2); RRestore].

Definition renderImageRotated (gh : GameHandlerT) (ctx : list RotatedOp)
    (image : Image) (x y w h r : Q) : list RotatedOp :=
  let w2 := (w * (1 # 2))%Q in
  let h2 := (h * (1 # 2))%Q in
  let rf := rf image w2 h2 r in
  let ctx := rf ctx x y in
  let ctx := if JS.ltb (x - w2) 0 then rf ctx (width gh + x)%Q y else ctx in
  let ctx := if JS.ltb (y - h2) 0 then rf ctx x (height gh + y)%Q else ctx in
  let ctx := if JS.ltb (x - w2) 0 && JS.ltb (y - h2) 0
             then rf ctx (width gh + x)%Q (height gh + y)%Q else ctx in
  let ctx := if JS.gtb (x - w2 + w) (width gh)
             then rf ctx (x - width gh)%Q y else ctx in
  let ctx := if JS.gtb (y - h2 + h) (height gh)
             then rf ctx x (y - height gh)%Q else ctx in
  let ctx := if JS.gtb (x - w2 + w) (width gh) && JS.gtb (y - h2 + h) (height gh)
             then rf ctx (x - width gh)%Q (y - height gh)%Q else ctx in
  ctx.

(** ** Game.Preloader *)

Definition ImgRef := nat.

(** An image object: the [url] the preloader stored on it and its [src].
    Image objects live in a heap; a reference outside it stands for [null]. *)
Record Img := mkImg {
  img_url : option String.string;
  img_src : option String.string
}.

Record Preloader := mkPreloader {
  images : list ImgRef;
  callback : option nat;            (* the function to call, [null] at first *)
  counter : Z;
  called : list nat                 (* callbacks executed so far, in order *)
}.

(** [new Game.Preloader()] *)
Definition Preloader_new : Preloader :=
  {| images := []; callback := None; counter := 0; called := [] |}.

(** [addImage(img, url)]: stores the url on the image, attaches the load
    handler and appends the image. *)
Definition addImage (img : ImgRef) (url : String.string)
    (st : Preloader * gmap ImgRef Img) : option (Preloader * gmap ImgRef Img) :=
  let (p, h) := st in
  match h !! img with
  | None => None
  | Some i =>
      Some ({| images := images p ++ [img]; callback := callback p;
               counter := counter p; called := called p |},
            <[img := {| img_url := Some url; img_src := img_src i |}]> h)
  end.

(** The loop of [onLoadCallback]: [this.images[i].src = this.images[i].url]. *)
Fixpoint load_images (l : list ImgRef) (h : gmap ImgRef Img) : option (gmap ImgRef Img) :=
  match l with
  | [] => Some h
  | r :: l =>
      match h !! r with
      | None => None
      | Some i => load_images l (<[r := {| img_url := img_url i; img_src := img_url i |}]> h)
      end
  end.

(** [onLoadCallback(fn)] *)
Definition onLoadCallback (fn : nat)
    (st : Preloader * gmap ImgRef Img) : option (Preloader * gmap ImgRef Img) :=
  let (p, h) := st in
  match load_images (images p) h with
  | None => None
  | Some h' =>
      Some ({| images := images p; callback := Some fn; counter := 0;
               called := called p |}, h')
  end.

(** The [onload] closure attached by [addImage], run when an image has
    loaded. *)
Definition onload (p : Preloader) : option Preloader :=
  let counter' := counter p + 1 in
  if counter' =? Z.of_nat (length (images p)) then
    match callback p with
    | None => None
    | Some fn =>
        Some {| images := images p; callback := callback p; counter := counter';
                called := called p ++ [fn] |}
    end
  else
    Some {| images := images p; callback := callback p; counter := counter';
            called := called p |}.

(** [n] images finish loading, one after the other. *)
Fixpoint onloads (n : nat) (p : Preloader) : option Preloader :=
  match n with
  | O => Some p
  | S n => match onload p with
           | None => None
           | Some p' => onloads n p'
           end
  end.

(** ** Vocabulary for the further properties *)

(** Rendering a sprite once per frame, frame after frame. *)
Fixpoint renderSprites (ghs : list GameHandlerT) (ctx : Ctx) (a : SpriteActor)
    (x y s : Q) : Ctx * SpriteActor :=
  match ghs with
  | [] => (ctx, a)
  | gh :: ghs =>
      let (ctx, a) := renderSprite gh ctx a x y s in
      renderSprites ghs ctx a x y s
  end.

(** One pass of the rotated blit around the centre [(tx, ty)]. *)
Definition rotated_pass (image : Image) (w h r tx ty : Q) : list RotatedOp :=
  [RSave; RTranslate tx ty; RRotate r;
   RDrawImage image (- (w * (1 # 2))) (- (h * (1 # 2))); RRestore].

(** Where a wrapped copy goes: the displacements the two blits apply, in
    the order the source tests them. *)
Inductive Shift :=
| ShiftLeftEdge       (* [x < 0]: by [+ width] *)
| ShiftTopEdge        (* [y < 0]: by [+ height] *)
| ShiftTopLeft        (* both: by [+ width], [+ height] *)
| ShiftRightEdge      (* [x + s > width]: by [- width] *)
| ShiftBottomEdge     (* [y + s > height]: by [- height] *)
| ShiftBottomRight.   (* both: by [- width], [- height] *)

(** The coordinates of a copy of something at [(x, y)], written as the
    source writes them ([GameHandler.width + x], [x - GameHandler.width]). *)
Definition shift_x (gh : GameHandlerT) (sh : Shift) (x : Q) : Q :=
  match sh with
  | ShiftLeftEdge | ShiftTopLeft => (width gh + x)%Q
  | ShiftRightEdge | ShiftBottomRight => (x - width gh)%Q
  | ShiftTopEdge | ShiftBottomEdge => x
  end.

Definition shift_y (gh : GameHandlerT) (sh : Shift) (y : Q) : Q :=
  match sh with
  | ShiftTopEdge | ShiftTopLeft => (height gh + y)%Q
  | ShiftBottomEdge | ShiftBottomRight => (y - height gh)%Q
  | ShiftLeftEdge | ShiftRightEdge => y
  end.

(** The scene, if any, that stands at the game's index. *)
Definition coherent (g : Main) : bool :=
  match currentScene g with
  | None => sceneIndex g =? -1
  | Some c =>
      ((sceneIndex g =? -1) && bool_decide (endScene g = Some c)) ||
      ((0 <=? sceneIndex g) &&
       bool_decide (scenes g !! Z.to_nat (sceneIndex g) = Some c))
  end.

(** The hook calls of the render pass on scene [f]. *)
Definition render_calls (steady : bool) (f : SceneRef) : list Call :=
  if steady then [OnBeforeRenderScene f; OnRenderGame; OnRenderScene f]
  else [OnRenderGame; IntervalRenderer f].

Definition is_render_game (c : Call) : bool :=
  match c with
  | OnRenderGame => true
  | _ => false
  end.

Definition count_render_game (cs : list Call) : nat :=
  length (List.filter is_render_game cs).

(** Two fresh image objects. *)
Definition two_images : gmap ImgRef Img :=
  <[0%nat := mkImg None None]> (<[1%nat := mkImg None None]> ∅).

(** The demo game before its first frame, scene 0 having an interval that is
    marked complete from an earlier visit. *)
Definition entering_world (t : Z) : World :=
  world_of (clock_at t) demo_game (<[0%nat := timed_scene true]> demo_heap).

(** An interval renderer that declares the interval complete at once. *)
Definition finishing (t : Z) (done : SceneRef -> bool) : Env :=
  {| Date_now_start := t; Date_now_end := t; isGameOver := false;
     isComplete := done;
     intervalRenderer := fun _ i =>
       {| label := label i; framecounter := framecounter i + 1; complete := true |} |}.

(** The world in which [start(game)] runs its frame: the game registered and
    the clock primed to [now]. *)
Definition started (w : World) (g : Main) (now : Z) : World :=
  {| handler := set_frameStart (handler w) now; game := Some g; heap := heap w;
     canvas := canvas w; calls := calls w; pending := pending w |}.

(** The handler, heap and canvas before any game is registered. *)
Definition no_game_world (paused_flag : bool) : World :=
  {| handler := set_paused (clock_at 0) paused_flag; game := None; heap := demo_heap;
     canvas := []; calls := []; pending := 0 |}.

Definition World_fresh : World := no_game_world false.


(** * Properties *)

(** ** Comparison operators *)

Section Comparisons.

Variables x y : Q.

Lemma ltb_true : JS.ltb x y = true <-> (x < y)%Q.
Proof.
  unfold JS.ltb. rewrite negb_true_iff, <- not_true_iff_false, Qle_bool_iff.
  split; [apply Qnot_le_lt | apply Qlt_not_le].
Qed.

Lemma ltb_false : JS.ltb x y = false <-> (y <= x)%Q.
Proof.
  unfold JS.ltb. rewrite negb_false_iff. apply Qle_bool_iff.
Qed.

Lemma geb_true : JS.geb x y = true <-> (y <= x)%Q.
Proof. apply Qle_bool_iff. Qed.

Lemma geb_false : JS.geb x y = false <-> (x < y)%Q.
Proof.
  unfold JS.geb. rewrite <- not_true_iff_false, Qle_bool_iff.
  split; [apply Qnot_le_lt | apply Qlt_not_le].
Qed.

End Comparisons.

Lemma gtb_true x y : JS.gtb x y = true <-> (y < x)%Q.
Proof. apply (ltb_true y x). Qed.

Lemma gtb_false x y : JS.gtb x y = false <-> (x <= y)%Q.
Proof. apply (ltb_false y x). Qed.

Ltac js_compare :=
  rewrite ?ltb_true, ?ltb_false, ?gtb_true, ?gtb_false, ?geb_true, ?geb_false in *.

(** ** Toroidal blit *)

Section RenderImage.

Variable gh : GameHandlerT.
Variables (image : Image) (nx ny ns : Q).

Local Abbreviation W := (width gh).
Local Abbreviation H := (height gh).
Local Abbreviation blit' := (blit image nx ny ns).

(** [renderImage] appends the primary blit and then the wrapped copies
    selected by its six tests. *)
Lemma renderImage_cases ctx x y s :
  Util.renderImage gh ctx image nx ny ns x y s =
  ctx ++ blit' x y s ::
    (if JS.ltb x 0 then [blit' (W + x) y s] else []) ++
    (if JS.ltb y 0 then [blit' x (H + y) s] else []) ++
    (if JS.ltb x 0 && JS.ltb y 0 then [blit' (W + x) (H + y) s] else []) ++
    (if JS.gtb (x + s) W then [blit' (x - W) y s] else []) ++
    (if JS.gtb (y + s) H then [blit' x (y - H) s] else []) ++
    (if JS.gtb (x + s) W && JS.gtb (y + s) H
     then [blit' (x - W) (y - H) s] else []).
Proof.
  unfold Util.renderImage, drawImage, blit.
  destruct (JS.ltb x 0), (JS.ltb y 0), (JS.gtb (x + s) W), (JS.gtb (y + s) H);
    cbn [andb app]; repeat rewrite <- app_assoc; reflexivity.
Qed.

Ltac edge_cases x y s :=
  destruct (JS.ltb x 0) eqn:Ex, (JS.ltb y 0) eqn:Ey,
           (JS.gtb (x + s) W) eqn:Ew, (JS.gtb (y + s) H) eqn:Eh;
  cbn [andb app]; js_compare.

(** C7, as amended: the primary blit comes first; a destination within the
    field gets no other; at [destX = -5], past the left edge only, exactly
    one more follows, at [W - 5]; in general there are at most six further
    blits (at most three when the square is no larger than the field), each
    a copy displaced by the field width and/or height, and there is one
    exactly when the destination is not within the field. *)
Theorem renderImage_draws ctx x y s :
  exists extras,
    Util.renderImage gh ctx image nx ny ns x y s = ctx ++ blit' x y s :: extras /\
    (fully_inside gh x y s -> extras = []) /\
    (extras <> [] <-> ~ fully_inside gh x y s) /\
    (length extras <= 6)%nat /\
    ((s <= W)%Q -> (s <= H)%Q -> (length extras <= 3)%nat) /\
    Forall (shifted_copy gh image nx ny ns x y s) extras /\
    ((0 <= y)%Q -> (y + s <= H)%Q -> (-5 + s <= W)%Q ->
     Util.renderImage gh ctx image nx ny ns (-5) y s =
     ctx ++ [blit' (-5) y s; blit' (W - 5) y s]).
Proof.
  eexists. split; [apply renderImage_cases |].
  unfold fully_inside, shifted_copy.
  repeat split.
  - intros (? & ? & ? & ?). edge_cases x y s; try reflexivity; exfalso; lra.
  - edge_cases x y s; intros Hne (? & ? & ? & ?); try lra. now apply Hne.
  - edge_cases x y s; intros Hout; try discriminate.
    exfalso. apply Hout. repeat split; assumption.
  - edge_cases x y s; cbn [length]; lia.
  - intros HW HH. edge_cases x y s; cbn [length]; try lia; exfalso; lra.
  - edge_cases x y s;
      repeat (apply List.Forall_cons; [cbv beta; intuition reflexivity |]);
      apply List.Forall_nil.
  - intros Hy Hh Hw. rewrite renderImage_cases.
    apply ltb_false in Hy. apply gtb_false in Hh. apply gtb_false in Hw.
    rewrite Hy, Hh, Hw. reflexivity.
Qed.

End RenderImage.

Lemma renderImage_draws_witness :
  fully_inside (field 800 600) 10 20 64 /\
  Util.renderImage (field 800 600) [] 7%nat 0 0 64 10 20 64 =
    [blit 7%nat 0 0 64 10 20 64] /\
  Util.renderImage (field 800 600) [] 7%nat 0 0 64 (-5) 20 64 =
    [blit 7%nat 0 0 64 (-5) 20 64; blit 7%nat 0 0 64 (800 - 5) 20 64].
Proof.
  assert (Hin : fully_inside (field 800 600) 10 20 64).
  { unfold fully_inside; cbn; lra. }
  split; [exact Hin |].
  destruct (renderImage_draws (field 800 600) 7%nat 0 0 64 [] 10 20 64)
    as (extras & Heq & Hnil & _ & _ & _ & _ & Hleft).
  split.
  - rewrite Heq, (Hnil Hin). reflexivity.
  - apply Hleft; cbn; lra.
Defined.

(** C7 as stated fails: a square larger than the field that overlaps all four
    edges gets six wrapped copies, not at most four. *)
Lemma renderImage_six_extra_draws :
  Util.renderImage (field 10 10) [] 7%nat 0 0 64 (-5) (-5) 20 =
    [ blit 7%nat 0 0 64 (-5) (-5) 20;
      blit 7%nat 0 0 64 (10 + -5) (-5) 20;
      blit 7%nat 0 0 64 (-5) (10 + -5) 20;
      blit 7%nat 0 0 64 (10 + -5) (10 + -5) 20;
      blit 7%nat 0 0 64 (-5 - 10) (-5) 20;
      blit 7%nat 0 0 64 (-5) (-5 - 10) 20;
      blit 7%nat 0 0 64 (-5 - 10) (-5 - 10) 20 ] /\
  ~ (length (Util.renderImage (field 10 10) [] 7%nat 0 0 64 (-5) (-5) 20) <= 1 + 4)%nat.
Proof.
  split; [reflexivity |].
  vm_compute. lia.
Qed.

(** ** Sprite animation *)

Section RenderSprite.

Variables (gh : GameHandlerT) (ctx : Ctx) (a : SpriteActor) (x y s : Q).

Local Abbreviation delta := (animSpeed a * frameMultipler gh)%Q.
Local Abbreviation a' := (snd (renderSprite gh ctx a x y s)).

(** C6: a render step moves [animFrame] by [animSpeed * frameMultipler] in
    the configured direction; going forward it restarts at 0 as soon as the
    frame reaches or passes [animLength], going backward it restarts at
    [animLength - 1] as soon as the frame drops below 0; nothing of the
    overshoot is carried over, and no other field changes. *)
Theorem renderSprite_animFrame :
  (animForward a = true -> (animFrame a + delta < animLength a)%Q ->
     animFrame a' = (animFrame a + delta)%Q) /\
  (animForward a = true -> (animLength a <= animFrame a + delta)%Q ->
     animFrame a' = 0%Q) /\
  (animForward a = false -> (0 <= animFrame a - delta)%Q ->
     animFrame a' = (animFrame a - delta)%Q) /\
  (animForward a = false -> (animFrame a - delta < 0)%Q ->
     animFrame a' = (animLength a - 1)%Q) /\
  a' = set_animFrame a (animFrame a').
Proof.
  unfold renderSprite; cbn [snd].
  destruct (animForward a) eqn:Hdir.
  - cbn [animFrame animLength set_animFrame].
    destruct (JS.geb _ _) eqn:Hwrap; js_compare; cbn [animFrame set_animFrame];
      repeat split; try discriminate; intros; try reflexivity;
      exfalso; eapply Qlt_irrefl, Qlt_le_trans; eassumption.
  - cbn [animFrame animLength set_animFrame].
    destruct (JS.ltb _ _) eqn:Hwrap; js_compare; cbn [animFrame set_animFrame];
      repeat split; try discriminate; intros; try reflexivity;
      exfalso; eapply Qlt_irrefl, Qlt_le_trans; eassumption.
Qed.

End RenderSprite.

(** The spec's example: ten frames, forward, unit speed and multiplier; from
    frame 9 one render step lands on frame 0, not 10. *)
Lemma renderSprite_animFrame_witness :
  animForward (sprite 10 true 1 9) = true /\
  (animLength (sprite 10 true 1 9)
     <= animFrame (sprite 10 true 1 9)
        + animSpeed (sprite 10 true 1 9) * frameMultipler (field 800 600))%Q /\
  animFrame (snd (renderSprite (field 800 600) [] (sprite 10 true 1 9) 0 0 64)) = 0%Q.
Proof.
  assert (Hdir : animForward (sprite 10 true 1 9) = true) by reflexivity.
  assert (Hwrap : (animLength (sprite 10 true 1 9)
     <= animFrame (sprite 10 true 1 9)
        + animSpeed (sprite 10 true 1 9) * frameMultipler (field 800 600))%Q).
  { cbn. lra. }
  split; [exact Hdir |]. split; [exact Hwrap |].
  exact (proj1 (proj2 (renderSprite_animFrame (field 800 600) [] (sprite 10 true 1 9) 0 0 64))
           Hdir Hwrap).
Defined.

(** ** Effect decay *)

(** *** Comparison of doubles *)

Lemma SFcompare_antisym x y :
  SFcompare y x = option_map CompOpp (SFcompare x y).
Proof.
  destruct x as [sx | sx | | sx mx ex], y as [sy | sy | | sy my ey]; cbn;
    try reflexivity;
    try (destruct sx; reflexivity); try (destruct sy; reflexivity);
    try (destruct sx, sy; reflexivity).
  assert (Hm : Pos.compare_cont Eq my mx = CompOpp (Pos.compare_cont Eq mx my))
    by (symmetry; apply (Pos.compare_cont_antisym mx my Eq)).
  destruct sx, sy; cbn; try reflexivity; rewrite (Z.compare_antisym ex ey), Hm;
    destruct (ex ?= ey); cbn; try reflexivity;
    destruct (Pos.compare_cont Eq mx my); reflexivity.
Qed.

Lemma SFcompare_number x y :
  Double.is_nan x = false -> Double.is_nan y = false ->
  exists c, SFcompare x y = Some c.
Proof.
  destruct x, y; cbn; intros; try discriminate; eauto.
Qed.

Lemma SFcompare_refl x :
  Double.is_nan x = false -> SFcompare x x = Some Eq.
Proof.
  destruct x as [s | s | | s m e]; cbn; intros; try discriminate; try reflexivity.
  - destruct s; reflexivity.
  - destruct s; rewrite Z.compare_refl, Pos.compare_cont_refl; reflexivity.
Qed.

Lemma double_ltb_false_leb x y :
  Double.is_nan x = false -> Double.is_nan y = false ->
  Double.ltb x y = false -> Double.leb y x = true.
Proof.
  intros Hx Hy. unfold Double.ltb, Double.leb, SFltb, SFleb.
  rewrite (SFcompare_antisym x y).
  destruct (SFcompare_number x y Hx Hy) as [c ->]. destruct c; cbn; congruence.
Qed.

Lemma double_leb_number x y :
  Double.leb x y = true -> Double.is_nan x = false /\ Double.is_nan y = false.
Proof.
  unfold Double.leb, SFleb. destruct x, y; cbn; try discriminate; auto.
Qed.

Lemma double_is_zero x : Double.is_zero x = true -> x = Double.zero.
Proof.
  destruct x as [[|] | | |]; cbn; try discriminate. reflexivity.
Qed.

(** *** The operations at the start of an effect's life *)

Lemma double_sub_diag x :
  Double.is_finite x = true -> Double.sub x x = Double.zero.
Proof.
  destruct x as [s | s | | s m e]; cbn; try discriminate; intros _.
  - destruct s; reflexivity.
  - unfold Double.sub, SFsub. rewrite Z.sub_diag. reflexivity.
Qed.

Lemma double_mul_zero q :
  Double.is_finite q = true -> exists s, Double.mul q Double.zero = S754_zero s.
Proof.
  destruct q; cbn; try discriminate; eauto.
Qed.

Section EffectValue.

Variables (frameStart : Double.double) (e : DoubleEffect.EffectActor).
Variable val : Double.double.

(** C8, as amended: [effectValue val] is the difference
    [val - (val / lifespan) * age], computed in doubles, cropped to 0 from
    below and to [val] from above.  For [val >= 0] the result lies in
    [[0, val]] whenever the difference is a number; at age 0 it is exactly
    [val] (finite positive [val], [val / lifespan] finite).  For the
    effect of lifespan 1000 and value 100 it is 100 at age 0, 50 at age
    500 and 0 at every whole age from 1000 to 3000.  Nothing is claimed
    in general at half the lifespan and from the lifespan on: there the
    rounding of [val / lifespan] shows. *)
Theorem effectValue_double_decay :
  (DoubleEffect.effectValue frameStart e val =
   if Double.ltb (effectDifference frameStart e val) Double.zero then Double.zero
   else if Double.gtb (effectDifference frameStart e val) val then val
   else effectDifference frameStart e val) /\
  (Double.is_nan (effectDifference frameStart e val) = false ->
   Double.leb Double.zero val = true ->
   Double.leb Double.zero (DoubleEffect.effectValue frameStart e val) = true /\
   Double.leb (DoubleEffect.effectValue frameStart e val) val = true) /\
  (Double.is_positive val = true ->
   Double.is_finite (Double.div val (DoubleEffect.lifespan e)) = true ->
   Double.is_finite frameStart = true ->
   DoubleEffect.effectStart e = frameStart ->
   DoubleEffect.effectValue frameStart e val = val) /\
  (effectValue_at 1000 0 0 100 = Double.of_Z 100 /\
   effectValue_at 1000 0 500 100 = Double.of_Z 50 /\
   forall t, 1000 <= t <= 3000 -> effectValue_at 1000 0 t 100 = Double.zero).
Proof.
  split; [reflexivity |]. split; [| split].
  - intros Hr Hv. unfold DoubleEffect.effectValue.
    fold (effectDifference frameStart e val).
    destruct (double_leb_number _ _ Hv) as [_ Hvn].
    destruct (Double.ltb (effectDifference frameStart e val) Double.zero) eqn:Hlt.
    + split; [reflexivity | exact Hv].
    + destruct (Double.gtb (effectDifference frameStart e val) val) eqn:Hgt.
      * split; [exact Hv |]. unfold Double.leb, SFleb. now rewrite SFcompare_refl.
      * split; apply double_ltb_false_leb; auto.
  - intros Hpos Hq Hfs Hes. unfold DoubleEffect.effectValue.
    rewrite Hes, (double_sub_diag _ Hfs).
    destruct (double_mul_zero _ Hq) as [s ->].
    destruct val as [sv | sv | | sv m ex]; try discriminate.
    destruct sv; try discriminate. cbn.
    rewrite Z.compare_refl, Pos.compare_cont_refl. reflexivity.
  - split; [vm_compute; reflexivity |]. split; [vm_compute; reflexivity |].
    intros t Ht.
    assert (Hall : forallb (fun t => Double.is_zero (effectValue_at 1000 0 t 100))
                     (seqZ 1000 2001) = true) by (vm_compute; reflexivity).
    rewrite forallb_forall in Hall. specialize (Hall t).
    apply double_is_zero, Hall, list_elem_of_In, elem_of_seqZ. lia.
Qed.

End EffectValue.

Lemma effectValue_double_decay_witness :
  Double.is_nan (effectDifference (Double.of_Z 1100) (effect_at 100 1000) (Double.of_Z 255))
    = false /\
  Double.leb Double.zero (Double.of_Z 255) = true /\
  Double.leb Double.zero (effectValue_at 100 1000 1100 255) = true /\
  Double.leb (effectValue_at 100 1000 1100 255) (Double.of_Z 255) = true /\
  effectValue_at 100 1000 1000 255 = Double.of_Z 255.
Proof.
  assert (Hr : Double.is_nan (effectDifference (Double.of_Z 1100) (effect_at 100 1000)
                                (Double.of_Z 255)) = false)
    by (vm_compute; reflexivity).
  assert (Hv : Double.leb Double.zero (Double.of_Z 255) = true) by (vm_compute; reflexivity).
  split; [exact Hr |]. split; [exact Hv |].
  pose proof (effectValue_double_decay (Double.of_Z 1100) (effect_at 100 1000)
                (Double.of_Z 255)) as (_ & Hrange & _).
  pose proof (effectValue_double_decay (Double.of_Z 1000) (effect_at 100 1000)
                (Double.of_Z 255)) as (_ & _ & Hstart & _).
  destruct (Hrange Hr Hv) as [Hlo Hhi].
  split; [exact Hlo |]. split; [exact Hhi |].
  apply Hstart; vm_compute; reflexivity.
Defined.

(** C8 as stated fails in the arithmetic of the source.  With value 255 and
    lifespan 100 the quotient [255 / 100] is rounded down, so at age 100 the
    difference is [2^-45] and not 0 (and the effect has not expired), and at
    age 50 the result is one unit in the last place above [255 / 2]. *)
Lemma effectValue_double_residue :
  effectValue_at 100 0 100 255 = S754_finite false (2 ^ 52) (-97) /\
  effectValue_at 100 0 100 255 <> Double.zero /\
  Double.ltb Double.zero (effectValue_at 100 0 100 255) = true /\
  DoubleEffect.expired (Double.of_Z 100) (effect_at 100 0) = false /\
  Double.div (Double.of_Z 255) (Double.of_Z 2) = S754_finite false 8972014882652160 (-46) /\
  effectValue_at 100 0 50 255 = S754_finite false 8972014882652161 (-46).
Proof.
  repeat split; try (vm_compute; reflexivity).
  vm_compute. discriminate.
Qed.

(** ** The source tile of a sprite *)

Lemma wrap32_small z : - 2 ^ 31 <= z < 2 ^ 31 -> JS.wrap32 z = z.
Proof.
  intros Hz. unfold JS.wrap32. rewrite Z.mod_small; lia.
Qed.

Lemma Qtrunc_nonneg q : (0 <= q)%Q -> JS.Qtrunc q = Qfloor q.
Proof.
  destruct q as [n d]. unfold Qle, JS.Qtrunc, Qfloor. cbn [Qnum Qden].
  intros Hn. apply Z.quot_div_nonneg; lia.
Qed.

Lemma Qfloor_range q (n : Z) :
  (0 <= q)%Q -> (q < inject_Z n)%Q -> 0 <= Qfloor q < n.
Proof.
  intros H0 Hn. split.
  - change 0 with (Qfloor 0). now apply Qfloor_resp_le.
  - rewrite Zlt_Qlt. eapply Qle_lt_trans; [apply Qfloor_le | exact Hn].
Qed.

Lemma shl_6 z : JS.shl z 6 = JS.wrap32 (z * 64).
Proof.
  unfold JS.shl. change (Z.land 6 31) with 6.
  rewrite Z.shiftl_mul_pow2 by lia. reflexivity.
Qed.

Lemma spriteSourceY_in_range a :
  (0 <= animFrame a)%Q -> (animFrame a < 33554432)%Q ->
  spriteSourceY a = 64 * Qfloor (animFrame a).
Proof.
  intros H0 Hn. unfold spriteSourceY, JS.ToInt32.
  rewrite Qtrunc_nonneg by assumption.
  pose proof (Qfloor_range (animFrame a) 33554432 H0 Hn) as Hr.
  rewrite shl_6, (wrap32_small (Qfloor (animFrame a))) by lia.
  rewrite wrap32_small by lia. lia.
Qed.

Section SpriteSource.

Variables (gh : GameHandlerT) (ctx : Ctx) (a : SpriteActor) (x y s : Q).

(** C10, as amended: the primary blit of [renderSprite] samples the source
    square of side [frameSize] at [(0, animFrame << 6)]; that offset is the
    frame number truncated toward zero, times 64, reduced to a signed 32-bit
    integer, and depends on nothing but [animFrame]; for
    [0 <= animFrame < 2^25] it is [floor(animFrame) * 64], so that whole
    frames are 64 apart whatever [frameSize] is. *)
Theorem renderSprite_source_tile :
  (exists extras,
     fst (renderSprite gh ctx a x y s) =
     ctx ++ blit (animImage a) 0 (inject_Z (spriteSourceY a)) (frameSize a) x y s
         :: extras) /\
  spriteSourceY a = JS.wrap32 (JS.wrap32 (JS.Qtrunc (animFrame a)) * 64) /\
  (forall b, animFrame b = animFrame a -> spriteSourceY b = spriteSourceY a) /\
  ((0 <= animFrame a)%Q -> (animFrame a < 33554432)%Q ->
     spriteSourceY a = 64 * Qfloor (animFrame a)) /\
  (forall b, (0 <= animFrame a)%Q -> (animFrame b < 33554432)%Q ->
     Qfloor (animFrame b) = Qfloor (animFrame a) + 1 ->
     spriteSourceY b - spriteSourceY a = 64).
Proof.
  repeat split.
  - unfold renderSprite; cbn [fst]. rewrite renderImage_cases. eauto.
  - unfold spriteSourceY. apply shl_6.
  - intros b Hb. unfold spriteSourceY. now rewrite Hb.
  - apply spriteSourceY_in_range.
  - intros b Ha Hb Hnext.
    assert (Hb0 : (0 <= animFrame b)%Q).
    { destruct (Qlt_le_dec (animFrame b) 0) as [Hneg | Hok]; [| exact Hok].
      exfalso.
      assert (Qfloor (animFrame b) <= Qfloor 0)
        by (apply Qfloor_resp_le, Qlt_le_weak, Hneg).
      assert (Qfloor 0 <= Qfloor (animFrame a)) by now apply Qfloor_resp_le.
      lia. }
    assert (Ha' : (animFrame a < 33554432)%Q).
    { destruct (Qlt_le_dec (animFrame a) 33554432) as [Hok | Hbig]; [exact Hok |].
      exfalso.
      pose proof (Qfloor_range (animFrame b) 33554432 Hb0 Hb).
      assert (Qfloor 33554432 <= Qfloor (animFrame a)) by now apply Qfloor_resp_le.
      change (Qfloor 33554432) with 33554432 in *. lia. }
    rewrite !spriteSourceY_in_range by assumption. lia.
Qed.

End SpriteSource.

Lemma renderSprite_source_tile_witness :
  (0 <= animFrame (sprite 10 true 1 (19 # 2)))%Q /\
  (animFrame (sprite 10 true 1 (19 # 2)) < 33554432)%Q /\
  spriteSourceY (sprite 10 true 1 (19 # 2)) = 64 * 9.
Proof.
  assert (H0 : (0 <= animFrame (sprite 10 true 1 (19 # 2)))%Q) by (cbn; lra).
  assert (Hn : (animFrame (sprite 10 true 1 (19 # 2)) < 33554432)%Q) by (cbn; lra).
  split; [exact H0 |]. split; [exact Hn |].
  exact (proj1 (proj2 (proj2 (proj2
           (renderSprite_source_tile (field 800 600) [] (sprite 10 true 1 (19 # 2)) 0 0 64))))
           H0 Hn).
Defined.

(** C10 as stated fails below zero: a negative animation speed takes the
    frame from 0 to -1/2, and the next render samples offset 0 (truncation
    toward zero), whereas [floor(-1/2) * 64] is -64.  It also fails from
    [2^25] on, where the shift overflows 32 bits. *)
Lemma renderSprite_source_negative_frame :
  let a := snd (renderSprite (field 800 600) [] (sprite 10 true (-1 # 2) 0) 0 0 64) in
  animFrame a = (-1 # 2)%Q /\
  fst (renderSprite (field 800 600) [] a 0 0 64) = [blit 0%nat 0 0 64 0 0 64] /\
  spriteSourceY a = 0 /\
  64 * Qfloor (animFrame a) = -64 /\
  spriteSourceY a <> 64 * Qfloor (animFrame a) /\
  spriteSourceY (sprite 40000000 true 1 33554432) = - 2 ^ 31 /\
  64 * Qfloor (animFrame (sprite 40000000 true 1 33554432)) = 2 ^ 31.
Proof.
  cbn zeta. repeat split; try reflexivity. vm_compute. discriminate.
Qed.


(** ** The frame: symbolic execution of the monadic code *)

Ltac unfold_monad :=
  unfold exec, frame, pause, start, tick, resolve_entry, resolve_advance, render_pass,
    update_clock, onInitScene, put_sceneIndex, get_endScene, scenes_at,
    requestAnimFrame, canvas_op, call, put_scene, get_scene, put_game, get_game,
    put_handler, get_handler, throw, bind, ret in *.

Ltac run_monad :=
  unfold_monad; cbn in *;
  repeat (case_match; simplify_eq; cbn in *).

Lemma heap_after_init_lookup r h r' :
  in_heap (heap_after_init r h) r' = in_heap h r'.
Proof.
  unfold heap_after_init, in_heap.
  destruct (h !! r) as [sc |] eqn:Hr; [| reflexivity].
  destruct (interval sc); [| reflexivity].
  destruct (decide (r = r')) as [-> | Hne].
  - now rewrite lookup_insert_eq, Hr.
  - now rewrite lookup_insert_ne.
Qed.

Lemma in_heap_insert (h : gmap SceneRef Scene) f sc sc' r :
  h !! f = Some sc -> in_heap (<[f := sc']> h) r = in_heap h r.
Proof.
  intros Hf. unfold in_heap.
  destruct (decide (f = r)) as [<- | Hne].
  - now rewrite lookup_insert_eq, Hf.
  - now rewrite lookup_insert_ne.
Qed.

(** After [onInitScene], a scene passes the interval gate only if it has no
    interval at all. *)
Lemma heap_after_init_gate r h sc sc' :
  h !! r = Some sc -> heap_after_init r h !! r = Some sc' ->
  interval_null_or_complete sc' = match interval sc with None => true | Some _ => false end.
Proof.
  unfold heap_after_init. intros Hr. rewrite Hr.
  destruct (interval sc) eqn:Hi.
  - rewrite lookup_insert_eq. intros [= <-]. reflexivity.
  - rewrite Hr. intros [= <-]. unfold interval_null_or_complete. now rewrite Hi.
Qed.

Lemma onInitScene_run r w :
  in_heap (heap w) r = true ->
  onInitScene r w =
  Some (tt, {| handler := handler w; game := game w;
               heap := heap_after_init r (heap w); canvas := canvas w;
               calls := calls w ++ [OnInitScene r]; pending := pending w |}).
Proof.
  unfold in_heap, heap_after_init. intros Hr. run_monad; reflexivity.
Qed.

Lemma onInitScene_inv r w u w' :
  onInitScene r w = Some (u, w') ->
  in_heap (heap w) r = true /\
  w' = {| handler := handler w; game := game w;
          heap := heap_after_init r (heap w); canvas := canvas w;
          calls := calls w ++ [OnInitScene r]; pending := pending w |}.
Proof.
  intros H.
  assert (Hr : in_heap (heap w) r = true).
  { unfold in_heap. run_monad; reflexivity. }
  split; [exact Hr |].
  rewrite (onInitScene_run r w Hr) in H. congruence.
Qed.

Ltac unfold_stage :=
  unfold exec, frame, pause, start, tick, resolve_entry, resolve_advance, render_pass,
    update_clock, put_sceneIndex, get_endScene, scenes_at,
    requestAnimFrame, canvas_op, call, put_scene, get_scene, put_game, get_game,
    put_handler, get_handler, throw, bind, ret in *.

Ltac init_inv :=
  match goal with
  | H : onInitScene _ _ = Some (_, _) |- _ =>
      apply onInitScene_inv in H; cbn in H; destruct H as [? ?]
  end.

Ltac run_stage :=
  unfold_stage; cbn in *;
  repeat (first [init_inv | case_match]; simplify_eq; cbn in * ).

(** Rules 1 and 2. *)
Lemma resolve_entry_inv env w g e w1 :
  game w = Some g ->
  resolve_entry env w = Some (e, w1) ->
  (currentScene g = None /\ scenes g !! 0%nat = Some e /\
   in_heap (heap w) e = true /\ w1 = entered w g 0 e) \/
  (currentScene g <> None /\ isGameOver env = true /\ endScene g = Some e /\
   in_heap (heap w) e = true /\ w1 = entered w g (-1) e) \/
  (currentScene g = Some e /\ isGameOver env = false /\ w1 = w).
Proof.
  intros Hg H. run_stage.
  - right; left. repeat split; try assumption; congruence.
  - right; right. auto.
  - left. auto.
Qed.

(** Rule 3. *)
Lemma resolve_advance_inv env w g e f w2 :
  game w = Some g ->
  resolve_advance env e w = Some (f, w2) ->
  exists sc, heap w !! e = Some sc /\
    ((interval_null_or_complete sc && isComplete env e = false /\ f = e /\ w2 = w) \/
     (interval_null_or_complete sc && isComplete env e = true /\
      0 <= next_index g < Z.of_nat (length (scenes g)) /\
      scenes g !! Z.to_nat (next_index g) = Some f /\
      in_heap (heap w) f = true /\ w2 = entered w g (next_index g) f)).
Proof.
  intros Hg H. unfold next_index. run_stage; eexists; (split; [reflexivity |]).
  all: try (left; repeat split; assumption).
  all: right; repeat split; try assumption; try lia.
  all: match goal with
       | H : scenes _ !! _ = Some _ |- _ => apply lookup_lt_Some in H; cbn in H; lia
       end.
Qed.

Lemma resolve_entry_handler env w e w1 :
  resolve_entry env w = Some (e, w1) ->
  handler w1 = handler w /\ canvas w1 = canvas w /\ pending w1 = pending w.
Proof. intros H. run_monad; auto. Qed.

Lemma resolve_advance_handler env c w e w1 :
  resolve_advance env c w = Some (e, w1) ->
  handler w1 = handler w /\ canvas w1 = canvas w /\ pending w1 = pending w.
Proof. intros H. run_monad; auto. Qed.

(** The render pass calls hooks and may let the interval renderer update the
    interval; it neither initialises a scene nor schedules anything. *)
Lemma render_pass_inv env f w u w3 :
  render_pass env f w = Some (u, w3) ->
  handler w3 = handler w /\ game w3 = game w /\ pending w3 = pending w /\
  (forall r, in_heap (heap w3) r = in_heap (heap w) r) /\
  exists l, calls w3 = calls w ++ l /\ inits l = [] /\ schedules l = [].
Proof.
  intros H. run_stage; repeat split; try reflexivity.
  all: try (intros; eapply in_heap_insert; eassumption).
  all: eexists; split; [rewrite <- !app_assoc; reflexivity | split; reflexivity].
Qed.

(** The handler after the timing block of a frame that started at [t]. *)
Lemma update_clock_inv t w u w' :
  update_clock t w = Some (u, w') ->
  let e := t - frameStart (handler w) in
  let e' := if e =? 0 then 1 else e in
  game w' = game w /\ heap w' = heap w /\ calls w' = calls w /\
  pending w' = pending w /\ canvas w' = canvas w /\
  paused (handler w') = paused (handler w) /\
  width (handler w') = width (handler w) /\
  height (handler w') = height (handler w) /\
  frameCount (handler w') = frameCount (handler w) + 1 /\
  frameMultipler (handler w') = (inject_Z e' / FPSMS)%Q /\
  frameStart (handler w') = t /\
  maxfps (handler w') =
    (if Z.rem (frameCount (handler w) + 1) 16 =? 0
     then JS.double_tilde (1000 / inject_Z e')
     else maxfps (handler w)).
Proof.
  intros H. run_stage; repeat split; reflexivity.
Qed.

Lemma frame_inv env w w' :
  exec (frame env) w = Some w' ->
  exists e w1 f w2 w3 g2 w5,
    resolve_entry env w = Some (e, w1) /\
    resolve_advance env e w1 = Some (f, w2) /\
    render_pass env f w2 = Some (tt, w3) /\
    game w3 = Some g2 /\
    update_clock (Date_now_start env)
      {| handler := handler w3; game := Some (set_currentScene g2 f);
         heap := heap w3; canvas := canvas w3; calls := calls w3;
         pending := pending w3 |} = Some (tt, w5) /\
    w' = if paused (handler w5) then w5
         else {| handler := handler w5; game := game w5; heap := heap w5;
                 canvas := canvas w5;
                 calls := calls w5 ++
                   [RequestAnimFrame
                      (JS.double_tilde
                         (FPSMS - inject_Z (Date_now_end env - Date_now_start env)))];
                 pending := S (pending w5) |}.
Proof.
  intros H. unfold exec, frame in H. unfold bind at 1 in H.
  destruct (resolve_entry env w) as [[e w1] |] eqn:H1; [| discriminate].
  unfold bind at 1 in H.
  destruct (resolve_advance env e w1) as [[f w2] |] eqn:H2; [| discriminate].
  unfold bind at 1 in H.
  destruct (render_pass env f w2) as [[[] w3] |] eqn:H3; [| discriminate].
  unfold bind at 1 in H. unfold bind at 1 in H. unfold get_game in H.
  destruct (game w3) as [g2 |] eqn:Hg2; [| discriminate].
  unfold put_game in H. unfold bind at 1 in H.
  match type of H with
  | context [update_clock ?t ?w4] =>
      destruct (update_clock t w4) as [[[] w5] |] eqn:H5; [| discriminate]
  end.
  unfold bind, get_handler, requestAnimFrame, ret in H.
  exists e, w1, f, w2, w3, g2, w5.
  repeat (split; [first [assumption | reflexivity] |]).
  destruct (paused (handler w5)); cbn in H; congruence.
Qed.

(** ** Well-formed worlds: frames run to completion and keep them so *)

Lemma well_formed_inv w :
  well_formed w = true ->
  exists g r0 e,
    game w = Some g /\ scenes g !! 0%nat = Some r0 /\
    (forall i r, scenes g !! i = Some r -> in_heap (heap w) r = true) /\
    endScene g = Some e /\ in_heap (heap w) e = true /\
    (forall c, currentScene g = Some c -> in_heap (heap w) c = true) /\
    index_ok g = true.
Proof.
  unfold well_formed. destruct (game w) as [g |]; [| discriminate].
  rewrite !andb_true_iff. intros ((((Hne & Hall) & He) & Hc) & Hi).
  destruct (scenes g) as [| r0 rs] eqn:Hs; [discriminate |].
  destruct (endScene g) as [e |] eqn:Hend; [| discriminate].
  exists g, r0, e. rewrite Hs.
  split; [reflexivity |]. split; [reflexivity |].
  split.
  { intros i r Hr. rewrite forallb_forall in Hall. apply Hall.
    apply list_elem_of_In. eapply list_elem_of_lookup_2. exact Hr. }
  split; [assumption |]. split; [assumption |].
  split; [| assumption].
  intros c Hcur. now rewrite Hcur in Hc.
Qed.

Lemma well_formed_intro w g r0 e :
  game w = Some g -> scenes g !! 0%nat = Some r0 ->
  (forall i r, scenes g !! i = Some r -> in_heap (heap w) r = true) ->
  endScene g = Some e -> in_heap (heap w) e = true ->
  (forall c, currentScene g = Some c -> in_heap (heap w) c = true) ->
  index_ok g = true ->
  well_formed w = true.
Proof.
  intros Hg H0 Hall He Heh Hc Hi. unfold well_formed. rewrite Hg, He, Heh, Hi.
  assert (Hne : match scenes g with [] => false | _ :: _ => true end = true).
  { destruct (scenes g); [discriminate | reflexivity]. }
  rewrite Hne, !andb_true_r. cbn [andb]. apply andb_true_iff. split.
  - apply forallb_forall. intros r' Hin. apply list_elem_of_In in Hin.
    apply list_elem_of_lookup_1 in Hin as [i Hi']. eapply Hall. exact Hi'.
  - destruct (currentScene g) as [c |]; [now apply Hc | reflexivity].
Qed.

Lemma well_formed_entered w g i e :
  well_formed w = true -> game w = Some g ->
  (i = -1 \/ 0 <= i < Z.of_nat (length (scenes g))) ->
  well_formed (entered w g i e) = true.
Proof.
  intros Hwf Hg Hi.
  destruct (well_formed_inv w Hwf) as (g' & r0 & e' & Hg' & H0 & Hall & He & Heh & Hc & _).
  assert (g' = g) by congruence. subst g'.
  apply (well_formed_intro _ (set_sceneIndex g i) r0 e'); cbn;
    try reflexivity; try assumption.
  - intros j r Hr. rewrite heap_after_init_lookup. eapply Hall. exact Hr.
  - now rewrite heap_after_init_lookup.
  - intros c Hcur. rewrite heap_after_init_lookup. now apply Hc.
  - unfold index_ok; cbn. destruct Hi as [-> | Hi]; [reflexivity |].
    apply orb_true_iff. right. apply andb_true_iff. split; lia.
Qed.

Lemma index_ok_inv g :
  index_ok g = true ->
  sceneIndex g = -1 \/ 0 <= sceneIndex g < Z.of_nat (length (scenes g)).
Proof.
  unfold index_ok. rewrite orb_true_iff, andb_true_iff. lia.
Qed.

Lemma forallb_pointwise {A} (p q : A -> bool) (l : list A) :
  (forall x, p x = q x) -> forallb p l = forallb q l.
Proof.
  intros Hpq. induction l as [| x l IH]; [reflexivity |].
  cbn [forallb]. now rewrite Hpq, IH.
Qed.

Lemma well_formed_ext w w' :
  game w' = game w ->
  (forall r, in_heap (heap w') r = in_heap (heap w) r) ->
  well_formed w' = well_formed w.
Proof.
  intros Hg Hh. unfold well_formed. rewrite Hg.
  destruct (game w) as [g |]; [| reflexivity].
  rewrite (forallb_pointwise (in_heap (heap w')) (in_heap (heap w)) (scenes g) Hh).
  destruct (endScene g), (currentScene g); rewrite ?Hh; reflexivity.
Qed.

Lemma resolve_entry_total env w :
  well_formed w = true ->
  exists e w1, resolve_entry env w = Some (e, w1) /\
               well_formed w1 = true /\ in_heap (heap w1) e = true.
Proof.
  intros Hwf.
  destruct (well_formed_inv w Hwf) as (g & r0 & e & Hg & H0 & Hall & He & Heh & Hc & Hi).
  unfold resolve_entry, bind at 1, get_game. rewrite Hg.
  destruct (currentScene g) as [c |] eqn:Hcur; [destruct (isGameOver env) |].
  - exists e, (entered w g (-1) e). split; [| split].
    + unfold_stage. repeat (cbn; rewrite ?Hg, ?He).
      rewrite onInitScene_run by exact Heh. reflexivity.
    + apply well_formed_entered; auto.
    + cbn. now rewrite heap_after_init_lookup.
  - exists c, w. repeat split; [assumption | now apply Hc].
  - exists r0, (entered w g 0 r0).
    assert (Hr0 : in_heap (heap w) r0 = true) by (eapply Hall; exact H0).
    split; [| split].
    + unfold_stage. change (Z.to_nat 0) with 0%nat.
      repeat (cbn; rewrite ?Hg, ?H0).
      rewrite onInitScene_run by exact Hr0. reflexivity.
    + apply well_formed_entered; auto. right.
      apply lookup_lt_Some in H0. lia.
    + cbn. now rewrite heap_after_init_lookup.
Qed.

Lemma resolve_advance_total env e w :
  well_formed w = true -> in_heap (heap w) e = true ->
  exists f w2, resolve_advance env e w = Some (f, w2) /\
               well_formed w2 = true /\ in_heap (heap w2) f = true.
Proof.
  intros Hwf Hin.
  destruct (well_formed_inv w Hwf) as (g & r0 & e' & Hg & H0 & Hall & He & Heh & Hc & Hi).
  unfold resolve_advance, bind at 1, get_scene.
  unfold in_heap in Hin. destruct (heap w !! e) as [sc |] eqn:Hsc; [| discriminate].
  destruct (interval_null_or_complete sc && isComplete env e).
  - assert (Hlen : (0 < length (scenes g))%nat) by (apply lookup_lt_Some in H0; exact H0).
    apply index_ok_inv in Hi.
    assert (Hnext : 0 <= next_index g < Z.of_nat (length (scenes g))).
    { unfold next_index.
      destruct (sceneIndex g + 1 <? Z.of_nat (length (scenes g))) eqn:Hlt; lia. }
    destruct (scenes g !! Z.to_nat (next_index g)) as [f |] eqn:Hf.
    2:{ apply lookup_ge_None in Hf. lia. }
    assert (Hfh : in_heap (heap w) f = true) by (eapply Hall; exact Hf).
    exists f, (entered w g (next_index g) f). split; [| split].
    + unfold next_index in *. unfold_stage.
      destruct (sceneIndex g + 1 <? Z.of_nat (length (scenes g))) eqn:Hlt.
      * assert (Hneg : (sceneIndex g + 1 <? 0) = false) by lia.
        repeat (cbn; rewrite ?Hg, ?Hlt, ?Hneg, ?Hf).
        rewrite onInitScene_run by exact Hfh. reflexivity.
      * assert (Hneg : (0 <? 0) = false) by reflexivity.
        repeat (cbn; rewrite ?Hg, ?Hlt, ?Hneg, ?Hf).
        rewrite onInitScene_run by exact Hfh. reflexivity.
    + apply well_formed_entered; auto.
    + cbn. now rewrite heap_after_init_lookup.
  - exists e, w. repeat split; [assumption |].
    unfold in_heap. now rewrite Hsc.
Qed.

Lemma render_pass_total env f w :
  in_heap (heap w) f = true -> exists w3, render_pass env f w = Some (tt, w3).
Proof.
  unfold in_heap. intros Hin.
  destruct (heap w !! f) as [sc |] eqn:Hsc; [| discriminate].
  unfold_stage. cbn. rewrite Hsc.
  destruct (interval_null_or_complete sc); cbn; [eauto |].
  destruct (interval sc); cbn; eauto.
Qed.

(** A frame on a well-formed world runs to completion, and the world it
    leaves is well-formed. *)
Lemma frame_total env w :
  well_formed w = true ->
  exists w', exec (frame env) w = Some w' /\ well_formed w' = true.
Proof.
  intros Hwf.
  destruct (resolve_entry_total env w Hwf) as (e & w1 & H1 & Hwf1 & Hin1).
  destruct (resolve_advance_total env e w1 Hwf1 Hin1) as (f & w2 & H2 & Hwf2 & Hin2).
  destruct (render_pass_total env f w2 Hin2) as (w3 & H3).
  pose proof (render_pass_inv _ _ _ _ _ H3) as (Hh3 & Hg3 & Hp3 & Hheap3 & _).
  assert (Hwf3 : well_formed w3 = true) by (rewrite (well_formed_ext w2 w3); auto).
  destruct (well_formed_inv w3 Hwf3) as (g & r0 & e' & Hg & H0 & Hall & He & Heh & Hc & Hi).
  unfold exec, frame. unfold bind at 1. rewrite H1.
  unfold bind at 1. rewrite H2. unfold bind at 1. rewrite H3.
  unfold_stage. cbn. rewrite Hg. cbn.
  assert (Hwf' : forall h c p cs,
    well_formed {| handler := h; game := Some (set_currentScene g f); heap := heap w3;
                   canvas := c; calls := cs; pending := p |} = true).
  { intros. apply (well_formed_intro _ (set_currentScene g f) r0 e'); cbn;
      try reflexivity; try assumption.
    intros c' [= <-]. now rewrite Hheap3. }
  destruct (Z.rem (frameCount (handler w3) + 1) 16 =? 0); cbn;
    destruct (paused (handler w3)); cbn; eexists; split; try reflexivity; apply Hwf'.
Qed.

(** ** What a completed frame did *)

Lemma inits_app l k : inits (l ++ k) = inits l ++ inits k.
Proof. apply omap_app. Qed.

Lemma schedules_app l k : schedules (l ++ k) = schedules l ++ schedules k.
Proof. apply omap_app. Qed.

Lemma calls_since_app w w' l : calls w' = calls w ++ l -> calls_since w w' = l.
Proof. unfold calls_since. intros ->. apply drop_app_length. Qed.

Lemma frame_summary env w w' :
  exec (frame env) w = Some w' ->
  exists e w1 f w2 g2 l,
    resolve_entry env w = Some (e, w1) /\
    resolve_advance env e w1 = Some (f, w2) /\
    game w2 = Some g2 /\
    game w' = Some (set_currentScene g2 f) /\
    (forall r, in_heap (heap w') r = in_heap (heap w2) r) /\
    calls w' = calls w2 ++ l /\ inits l = [] /\
    schedules l =
      (if paused (handler w) then []
       else [JS.double_tilde
               (FPSMS - inject_Z (Date_now_end env - Date_now_start env))]) /\
    pending w' = (if paused (handler w) then pending w else S (pending w)) /\
    update_clock (Date_now_start env) w = 
      Some (tt, {| handler := handler w'; game := game w; heap := heap w;
                   canvas := canvas w; calls := calls w; pending := pending w |}).
Proof.
  intros H.
  destruct (frame_inv env w w' H)
    as (e & w1 & f & w2 & w3 & g2 & w5 & H1 & H2 & H3 & Hg3 & H5 & Hw').
  pose proof (resolve_entry_handler _ _ _ _ H1) as (Hh1 & _ & Hp1).
  pose proof (resolve_advance_handler _ _ _ _ _ H2) as (Hh2 & _ & Hp2).
  pose proof (render_pass_inv _ _ _ _ _ H3) as (Hh3 & Hg32 & Hp3 & Hheap3 & l & Hl & Hli & Hls).
  pose proof (update_clock_inv _ _ _ _ H5) as Hclk. cbn in Hclk.
  destruct Hclk as (Hg5 & Hheap5 & Hc5 & Hp5 & _ & Hpa5 & _).
  assert (Hpa : paused (handler w5) = paused (handler w)) by congruence.
  assert (Hclock : update_clock (Date_now_start env) w =
                   Some (tt, {| handler := handler w5; game := game w; heap := heap w;
                                canvas := canvas w; calls := calls w;
                                pending := pending w |})).
  { clear - H5 Hh1 Hh2 Hh3. unfold update_clock, bind, get_handler, put_handler in *.
    cbn in *. rewrite Hh3, Hh2, Hh1 in H5. simplify_eq. cbn. reflexivity. }
  exists e, w1, f, w2, g2.
  rewrite Hpa in Hw'. destruct (paused (handler w)) eqn:Hpaused; subst w'; cbn.
  - exists l. rewrite Hg5, Hheap5, Hc5, Hp5. cbn.
    repeat split; try assumption; try congruence.
  - exists (l ++ [RequestAnimFrame
                    (JS.double_tilde
                       (FPSMS - inject_Z (Date_now_end env - Date_now_start env)))]).
    rewrite Hg5, Hheap5, Hc5, Hp5. cbn.
    rewrite inits_app, schedules_app, Hli, Hls, Hl, app_assoc. cbn.
    repeat split; try assumption; try congruence.
Qed.

Lemma in_heap_lookup (h : gmap SceneRef Scene) r :
  in_heap h r = true -> exists sc, h !! r = Some sc.
Proof.
  unfold in_heap. destruct (h !! r) as [sc |]; [eauto | discriminate].
Qed.

(** Every completed frame performs one of the four transitions. *)
Lemma frame_transition env w g w' :
  game w = Some g ->
  exec (frame env) w = Some w' ->
  exists f i,
    transition env g (heap w) (inits (calls_since w w')) f i /\
    game w' = Some {| scenes := scenes g; endScene := endScene g;
                      currentScene := Some f; sceneIndex := i |}.
Proof.
  intros Hg H.
  destruct (frame_summary env w w' H)
    as (e & w1 & f & w2 & g2 & l & H1 & H2 & Hg2 & Hg' & _ & Hcalls & Hl & _).
  destruct (resolve_entry_inv env w g e w1 Hg H1)
    as [(Hcur & He & Hin & ->) | [(Hcur & Hover & He & Hin & ->) | (Hcur & Hover & ->)]].
  - (* rule 1 *)
    assert (Hent : entry env g 0 e) by now constructor.
    destruct (in_heap_lookup _ _ Hin) as (sc & Hsc).
    destruct (resolve_advance_inv env (entered w g 0 e) (set_sceneIndex g 0)
                e f w2 eq_refl H2)
      as (sc' & Hsc' & [(Hgate & -> & ->) | (Hgate & Hrange & Hf & Hfin & ->)]);
      cbn in Hsc'; rewrite (heap_after_init_gate e (heap w) sc sc' Hsc Hsc') in Hgate;
      cbn in Hg2; simplify_eq.
    + exists e, 0. split; [| exact Hg'].
      rewrite (calls_since_app w w' ([OnInitScene e] ++ l))
        by (rewrite Hcalls; cbn; now rewrite <- app_assoc).
      rewrite inits_app, Hl. cbn.
      eapply transition_enter; eauto.
      destruct (interval sc); [left; discriminate | right; exact Hgate].
    + exists f, (next_index (set_sceneIndex g 0)). split; [| exact Hg'].
      rewrite (calls_since_app w w' ([OnInitScene e; OnInitScene f] ++ l))
        by (rewrite Hcalls; cbn; now rewrite <- !app_assoc).
      rewrite inits_app, Hl. cbn.
      destruct (interval sc) eqn:Hi; [discriminate |].
      eapply transition_enter_advance; eauto.
  - (* rule 2 *)
    assert (Hent : entry env g (-1) e) by now constructor.
    destruct (in_heap_lookup _ _ Hin) as (sc & Hsc).
    destruct (resolve_advance_inv env (entered w g (-1) e) (set_sceneIndex g (-1))
                e f w2 eq_refl H2)
      as (sc' & Hsc' & [(Hgate & -> & ->) | (Hgate & Hrange & Hf & Hfin & ->)]);
      cbn in Hsc'; rewrite (heap_after_init_gate e (heap w) sc sc' Hsc Hsc') in Hgate;
      cbn in Hg2; simplify_eq.
    + exists e, (-1). split; [| exact Hg'].
      rewrite (calls_since_app w w' ([OnInitScene e] ++ l))
        by (rewrite Hcalls; cbn; now rewrite <- app_assoc).
      rewrite inits_app, Hl. cbn.
      eapply transition_enter; eauto.
      destruct (interval sc); [left; discriminate | right; exact Hgate].
    + exists f, (next_index (set_sceneIndex g (-1))). split; [| exact Hg'].
      rewrite (calls_since_app w w' ([OnInitScene e; OnInitScene f] ++ l))
        by (rewrite Hcalls; cbn; now rewrite <- !app_assoc).
      rewrite inits_app, Hl. cbn.
      destruct (interval sc) eqn:Hi; [discriminate |].
      eapply transition_enter_advance; eauto.
  - (* neither *)
    destruct (resolve_advance_inv env w g e f w2 Hg H2)
      as (sc & Hsc & [(Hgate & -> & ->) | (Hgate & Hrange & Hf & Hfin & ->)]);
      cbn in Hg2; simplify_eq.
    + exists e, (sceneIndex g). split.
      * rewrite (calls_since_app w w' l) by exact Hcalls. rewrite Hl.
        eapply transition_stay; eauto.
      * rewrite Hg'. destruct g; reflexivity.
    + exists f, (next_index g). split; [| exact Hg'].
      rewrite (calls_since_app w w' ([OnInitScene f] ++ l))
        by (rewrite Hcalls; cbn; now rewrite <- app_assoc).
      rewrite inits_app, Hl. cbn.
      eapply transition_advance; eauto.
Qed.

(** The transitions open to a frame that starts on a current scene with the
    game not over: rule 3 or none. *)
Lemma transition_current env g h l f i c sc :
  transition env g h l f i ->
  currentScene g = Some c -> isGameOver env = false -> h !! c = Some sc ->
  (interval_null_or_complete sc && isComplete env c = false /\
   l = [] /\ f = c /\ i = sceneIndex g) \/
  (interval_null_or_complete sc && isComplete env c = true /\
   l = [f] /\ i = next_index g /\ scenes g !! Z.to_nat (next_index g) = Some f).
Proof.
  intros Htr Hc Hover Hsc.
  destruct Htr as [c' sc' Hc' _ Hsc' Hgate | c' sc' f Hc' _ Hsc' Hgate Hf
                  | i e sc' Hent | i e sc' f Hent].
  - left. assert (c' = c) by congruence. subst c'.
    assert (sc' = sc) by congruence. subst sc'. auto.
  - right. assert (c' = c) by congruence. subst c'.
    assert (sc' = sc) by congruence. subst sc'. auto.
  - exfalso. destruct Hent; congruence.
  - exfalso. destruct Hent; congruence.
Qed.

(** The transitions open to a frame in which rule 1 or rule 2 applies. *)
Lemma transition_entry env g h l f i :
  transition env g h l f i ->
  (currentScene g = None \/ isGameOver env = true) ->
  exists j e sc,
    entry env g j e /\ h !! e = Some sc /\
    (((interval sc <> None \/ isComplete env e = false) /\
      l = [e] /\ f = e /\ i = j) \/
     (interval sc = None /\ isComplete env e = true /\
      l = [e; f] /\ i = next_index (set_sceneIndex g j) /\
      scenes g !! Z.to_nat (next_index (set_sceneIndex g j)) = Some f)).
Proof.
  intros Htr Hrule.
  destruct Htr as [c' sc' Hc' Hover Hsc' Hgate | c' sc' f Hc' Hover Hsc' Hgate Hf
                  | i e sc' Hent Hsc' Hstay | i e sc' f Hent Hsc' Hnone Hdone Hf].
  - exfalso. destruct Hrule; congruence.
  - exfalso. destruct Hrule; congruence.
  - exists i, e, sc'. split; [exact Hent |]. split; [exact Hsc' |]. left. auto.
  - exists i, e, sc'. split; [exact Hent |]. split; [exact Hsc' |]. right. auto.
Qed.

(** ** Steps of the world and the index invariant *)

Lemma transition_index_ok env g h l f i :
  transition env g h l f i -> index_ok g = true ->
  i = -1 \/ 0 <= i < Z.of_nat (length (scenes g)).
Proof.
  intros Htr Hok. apply index_ok_inv in Hok.
  destruct Htr as [c sc Hc Hover Hsc Hgate | c sc f Hc Hover Hsc Hgate Hf
                  | j e sc Hent Hsc Hstay | j e sc f Hent Hsc Hnone Hdone Hf].
  - exact Hok.
  - right. apply lookup_lt_Some in Hf. unfold next_index in *.
    destruct (sceneIndex g + 1 <? Z.of_nat (length (scenes g))) eqn:Hlt; lia.
  - destruct Hent as [e _ He | e _ _ _]; [right | left; reflexivity].
    apply lookup_lt_Some in He. lia.
  - right. apply lookup_lt_Some in Hf. unfold next_index in *. cbn in *.
    destruct Hent; cbn in *;
      match goal with
      | |- context [?a <? ?b] => destruct (a <? b) eqn:Hlt
      end; lia.
Qed.

Lemma frame_index_ok env w g w' :
  game w = Some g -> index_ok g = true -> exec (frame env) w = Some w' ->
  exists g', game w' = Some g' /\ scenes g' = scenes g /\
             endScene g' = endScene g /\ index_ok g' = true.
Proof.
  intros Hg Hok H.
  destruct (frame_transition env w g w' Hg H) as (f & i & Htr & Hg').
  eexists. split; [exact Hg' |]. split; [reflexivity |]. split; [reflexivity |].
  pose proof (transition_index_ok _ _ _ _ _ _ Htr Hok) as Hi.
  unfold index_ok. cbn. rewrite orb_true_iff, andb_true_iff. lia.
Qed.

Lemma start_callback now env w : exec (start now None env) w = exec (frame env) w.
Proof.
  unfold exec, start, bind, ret. reflexivity.
Qed.

Lemma tick_frame env w :
  exec (tick env) w =
  exec (frame env)
    {| handler := handler w; game := game w; heap := heap w; canvas := canvas w;
       calls := calls w; pending := Nat.pred (pending w) |}.
Proof.
  unfold exec, tick, start, bind, ret. reflexivity.
Qed.

Lemma pause_paused now env w :
  paused (handler w) = true ->
  exec (pause now env) w = exec (frame env) (resumed w now).
Proof.
  intros Hp. unfold exec, pause, bind, get_handler, put_handler. cbn.
  rewrite Hp. reflexivity.
Qed.

Lemma pause_running now env w :
  paused (handler w) = false -> exec (pause now env) w = Some (suspended w).
Proof.
  intros Hp. unfold exec, pause, bind, get_handler, put_handler. cbn.
  rewrite Hp. reflexivity.
Qed.

Lemma step_index_ok w w' :
  step w w' ->
  forall g, game w = Some g -> index_ok g = true ->
  exists g', game w' = Some g' /\ scenes g' = scenes g /\
             endScene g' = endScene g /\ index_ok g' = true.
Proof.
  intros [env w0 w1 _ Htick | now env w0 w1 Hpause] g Hg Hok.
  - rewrite tick_frame in Htick.
    eapply frame_index_ok; [| exact Hok | exact Htick]. exact Hg.
  - destruct (paused (handler w0)) eqn:Hp.
    + rewrite pause_paused in Hpause by exact Hp.
      eapply frame_index_ok; [| exact Hok | exact Hpause]. exact Hg.
    + rewrite pause_running in Hpause by exact Hp. injection Hpause as <-.
      exists g. auto.
Qed.

Lemma reachable_index_ok w w' :
  rtc step w w' ->
  forall g, game w = Some g -> index_ok g = true ->
  exists g', game w' = Some g' /\ scenes g' = scenes g /\
             endScene g' = endScene g /\ index_ok g' = true.
Proof.
  induction 1 as [w | w w1 w2 Hstep _ IH]; intros g Hg Hok.
  - exists g. auto.
  - destruct (step_index_ok _ _ Hstep g Hg Hok) as (g1 & Hg1 & Hs1 & He1 & Hok1).
    destruct (IH g1 Hg1 Hok1) as (g2 & Hg2 & Hs2 & He2 & Hok2).
    exists g2. repeat split; congruence.
Qed.

(** Rules 1 to 3 only append init-hook calls. *)
Lemma resolve_entry_inv_calls env w e w1 :
  resolve_entry env w = Some (e, w1) ->
  exists k, calls w1 = calls w ++ k /\ schedules k = [].
Proof.
  intros H. run_stage.
  - exists [OnInitScene e]. auto.
  - exists []. now rewrite app_nil_r.
  - exists [OnInitScene e]. auto.
Qed.

Lemma resolve_advance_inv_calls env e w f w2 :
  resolve_advance env e w = Some (f, w2) ->
  exists k, calls w2 = calls w ++ k /\ schedules k = [].
Proof.
  intros H. run_stage.
  all: first [ exists [OnInitScene f]; split; reflexivity
             | exists []; now rewrite app_nil_r ].
Qed.


(** ** Frame timing *)

Lemma FPSMS_nonzero : ~ (FPSMS == 0)%Q.
Proof. unfold FPSMS. intros H. vm_compute in H. discriminate. Qed.

(** C1: a frame sets [frameMultipler] to [e / (1000/60)], where [e] is the
    time since the previous frame's start and 1 is used when that time is 0
    (the multiplier is then 60/1000, and no divisor is zero); it then stores
    this frame's start as the new [frameStart].  On a well-formed world the
    frame does run to completion. *)
Theorem frame_frameMultipler env w :
  (well_formed w = true -> exists w', exec (frame env) w = Some w') /\
  (forall w', exec (frame env) w = Some w' ->
     let e := elapsed env w in
     let e' := if e =? 0 then 1 else e in
     frameMultipler (handler w') = (inject_Z e' / FPSMS)%Q /\
     (FPSMS == 1000 / 60)%Q /\ ~ (FPSMS == 0)%Q /\ e' <> 0 /\
     (e <> 0 -> frameMultipler (handler w') = (inject_Z e / FPSMS)%Q) /\
     (e = 0 -> (frameMultipler (handler w') == 60 # 1000)%Q) /\
     frameStart (handler w') = Date_now_start env).
Proof.
  split.
  - intros Hwf. destruct (frame_total env w Hwf) as (w' & Hw' & _). eauto.
  - intros w' H.
    destruct (frame_summary env w w' H)
      as (e & w1 & f & w2 & g2 & l & _ & _ & _ & _ & _ & _ & _ & _ & _ & Hclk).
    apply update_clock_inv in Hclk. cbn in Hclk.
    destruct Hclk as (_ & _ & _ & _ & _ & _ & _ & _ & _ & Hmul & Hstart & _).
    unfold elapsed. cbn zeta. rewrite Hmul.
    split; [reflexivity |]. split; [reflexivity |].
    split; [exact FPSMS_nonzero |].
    destruct (Z.eqb_spec (Date_now_start env - frameStart (handler w)) 0) as [Hz | Hnz].
    + repeat split; try assumption; try lia; intros; reflexivity.
    + repeat split; try assumption; try lia; intros; reflexivity.
Qed.

Lemma frame_frameMultipler_witness :
  well_formed (demo_world 1000 (Some 0%nat) 0) = true /\
  exists w',
    exec (frame (Env_default 1000 1000)) (demo_world 1000 (Some 0%nat) 0) = Some w' /\
    elapsed (Env_default 1000 1000) (demo_world 1000 (Some 0%nat) 0) = 0 /\
    (frameMultipler (handler w') == 60 # 1000)%Q /\
    frameStart (handler w') = 1000.
Proof.
  split; [reflexivity |].
  eexists.
  assert (Hrun : exec (frame (Env_default 1000 1000))
                   (demo_world 1000 (Some 0%nat) 0) = Some ?[w'])
    by (vm_compute; reflexivity).
  split; [exact Hrun |]. split; [reflexivity |].
  destruct (proj2 (frame_frameMultipler (Env_default 1000 1000)
                     (demo_world 1000 (Some 0%nat) 0)) _ Hrun)
    as (_ & _ & _ & _ & _ & Hzero & Hstart).
  split; [apply Hzero; reflexivity | exact Hstart].
Defined.

(** ** The interval gate *)

Section IntervalGate.

Variables (env : Env) (w : World) (g : Main) (c : SceneRef) (sc : Scene) (i : Interval).

Hypothesis Hgame : game w = Some g.
Hypothesis Hcurrent : currentScene g = Some c.
Hypothesis Hover : isGameOver env = false.
Hypothesis Hscene : heap w !! c = Some sc.
Hypothesis Hinterval : interval sc = Some i.
Hypothesis Hrunning : complete i = false.

Lemma gated_frame_runs : exists w', exec (frame env) w = Some w'.
Proof.
  assert (Hgate : interval_null_or_complete sc = false).
  { unfold interval_null_or_complete. now rewrite Hinterval. }
  unfold_stage.
  repeat (cbn; rewrite ?Hgame, ?Hcurrent, ?Hover, ?Hscene, ?Hgate, ?Hinterval).
  destruct (Z.rem (frameCount (handler w) + 1) 16 =? 0); cbn;
    destruct (paused (handler w)); cbn; eauto.
Qed.

(** C2: while the current scene's interval exists and is not complete (and
    the game is not over), a frame stays on the current scene, whatever
    its [isComplete()] answers: same scene, same index, no init hook. *)
Theorem interval_gates_advance :
  exists w',
    exec (frame env) w = Some w' /\
    game w' = Some g /\
    inits (calls_since w w') = [].
Proof.
  destruct gated_frame_runs as (w' & Hw'). exists w'. split; [exact Hw' |].
  destruct (frame_transition env w g w' Hgame Hw') as (f & idx & Htr & Hg').
  assert (Hgate : interval_null_or_complete sc = false).
  { unfold interval_null_or_complete. now rewrite Hinterval. }
  destruct (transition_current _ _ _ _ _ _ c sc Htr Hcurrent Hover Hscene)
    as [(_ & -> & -> & ->) | (Hopen & _)].
  - split; [| reflexivity]. rewrite Hg'. destruct g; cbn in *. congruence.
  - rewrite Hgate in Hopen. discriminate.
Qed.

End IntervalGate.

Lemma interval_gates_advance_witness :
  exists w',
    exec (frame (answers 1016 false (fun _ => true))) (gated_world 1000) = Some w' /\
    game w' = game (gated_world 1000) /\
    inits (calls_since (gated_world 1000) w') = [].
Proof.
  exact (interval_gates_advance (answers 1016 false (fun _ => true)) (gated_world 1000)
           _ 0%nat (timed_scene false) _ eq_refl eq_refl eq_refl eq_refl eq_refl eq_refl).
Defined.

(** ** Precedence of the transition rules *)

(** C3 as stated fails: rule 3 is tested by a separate [if], after rules 1
    and 2 and on the scene they entered.  Entering scene 0 of the demo game
    (no interval) while it reports completion runs rule 1 and rule 3 in one
    frame; a game-over frame whose end scene reports completion runs rule 2
    and rule 3. *)
Lemma rule_3_fires_after_rule_1_or_2 :
  (currentScene demo_game = None /\
   exists w',
     exec (frame (answers 1016 false (fun _ => true))) (demo_world 1000 None (-1))
       = Some w' /\
     inits (calls_since (demo_world 1000 None (-1)) w') = [0%nat; 1%nat] /\
     game w' = Some {| scenes := [0%nat; 1%nat]; endScene := Some 2%nat;
                       currentScene := Some 1%nat; sceneIndex := 1 |} /\
     ~ (length (inits (calls_since (demo_world 1000 None (-1)) w')) <= 1)%nat) /\
  (exists w',
     exec (frame (answers 1016 true (fun _ => true))) (demo_world 1000 (Some 1%nat) 1)
       = Some w' /\
     inits (calls_since (demo_world 1000 (Some 1%nat) 1) w') = [2%nat; 0%nat] /\
     game w' = Some {| scenes := [0%nat; 1%nat]; endScene := Some 2%nat;
                       currentScene := Some 0%nat; sceneIndex := 0 |} /\
     ~ (length (inits (calls_since (demo_world 1000 (Some 1%nat) 1) w')) <= 1)%nat).
Proof.
  split; [split; [reflexivity |] |].
  - eexists. split; [vm_compute; reflexivity |].
    split; [reflexivity |]. split; [reflexivity |]. vm_compute. lia.
  - eexists. split; [vm_compute; reflexivity |].
    split; [reflexivity |]. split; [reflexivity |]. vm_compute. lia.
Qed.

Section RulePrecedence.

Variables (env : Env) (w : World) (g : Main) (w' : World).

Hypothesis Hgame : game w = Some g.
Hypothesis Hframe : exec (frame env) w = Some w'.

(** C3, as amended: rule 1 and rule 2 exclude each other, in that order
    (with no current scene the frame enters scene 0 whether or not the
    game is over); rule 3 is then tested on the scene so resolved, and
    fires in the same frame exactly when the entered scene has no interval
    and reports completion.  A frame therefore makes at most two
    transitions, and at most one when neither rule 1 nor rule 2 applies. *)
Theorem rules_precedence :
  (length (inits (calls_since w w')) <= 2)%nat /\
  (currentScene g <> None -> isGameOver env = false ->
     (length (inits (calls_since w w')) <= 1)%nat) /\
  (currentScene g = None ->
     exists e sc, scenes g !! 0%nat = Some e /\ heap w !! e = Some sc /\
       ((interval sc <> None \/ isComplete env e = false) ->
          inits (calls_since w w') = [e]) /\
       (interval sc = None -> isComplete env e = true ->
          exists f, inits (calls_since w w') = [e; f])) /\
  (currentScene g <> None -> isGameOver env = true ->
     exists e sc, endScene g = Some e /\ heap w !! e = Some sc /\
       ((interval sc <> None \/ isComplete env e = false) ->
          inits (calls_since w w') = [e]) /\
       (interval sc = None -> isComplete env e = true ->
          exists f, inits (calls_since w w') = [e; f])).
Proof.
  destruct (frame_transition env w g w' Hgame Hframe) as (f & i & Htr & _).
  split; [| split; [| split]].
  - destruct Htr; cbn; lia.
  - intros Hcur Hover. destruct (currentScene g) as [c |] eqn:Hc; [| congruence].
    destruct Htr as [| | j e sc Hent | j e sc f Hent]; cbn; try lia;
      exfalso; destruct Hent; congruence.
  - intros Hcur.
    destruct (transition_entry _ _ _ _ _ _ Htr (or_introl Hcur))
      as (j & e & sc & Hent & Hsc & Hcases).
    destruct Hent as [e _ He | e Hne _ _]; [| congruence].
    exists e, sc. split; [exact He |]. split; [exact Hsc |].
    destruct Hcases as [(Hstay & -> & _) | (Hnone & Hdone & -> & _)].
    + split; [reflexivity |]. intros Hnone Hdone.
      destruct Hstay; congruence.
    + split; [| eauto]. intros [Hsome | Hnot]; congruence.
  - intros Hcur Hover.
    destruct (transition_entry _ _ _ _ _ _ Htr (or_intror Hover))
      as (j & e & sc & Hent & Hsc & Hcases).
    destruct Hent as [e Hnone _ | e _ _ He]; [congruence |].
    exists e, sc. split; [exact He |]. split; [exact Hsc |].
    destruct Hcases as [(Hstay & -> & _) | (Hnone & Hdone & -> & _)].
    + split; [reflexivity |]. intros Hnone Hdone.
      destruct Hstay; congruence.
    + split; [| eauto]. intros [Hsome | Hnot]; congruence.
Qed.

End RulePrecedence.


Lemma rules_precedence_witness :
  exists w',
    game (demo_world 1000 None (-1)) = Some demo_game /\
    exec (frame (answers 1016 true (fun _ => true))) (demo_world 1000 None (-1)) = Some w' /\
    (length (inits (calls_since (demo_world 1000 None (-1)) w')) <= 2)%nat.
Proof.
  eexists.
  assert (Hrun : exec (frame (answers 1016 true (fun _ => true)))
                   (demo_world 1000 None (-1)) = Some ?[w'])
    by (vm_compute; reflexivity).
  split; [reflexivity |]. split; [exact Hrun |].
  exact (proj1 (rules_precedence (answers 1016 true (fun _ => true))
                  (demo_world 1000 None (-1)) demo_game _ eq_refl Hrun)).
Defined.

(** ** When init hooks run *)

(** C5 as stated fails: rule 2 has no test for the end scene being current
    already.  With the game over on two consecutive frames, the end scene's
    init hook runs on both: on the frame that makes it current, and again on
    the next frame, where it was current before the frame began. *)
Lemma end_scene_init_repeats :
  exists w1 w2,
    exec (frame (answers 1016 true (fun _ => false))) (demo_world 1000 (Some 1%nat) 1)
      = Some w1 /\
    inits (calls_since (demo_world 1000 (Some 1%nat) 1) w1) = [2%nat] /\
    (exists g1, game w1 = Some g1 /\ currentScene g1 = Some 2%nat) /\
    exec (frame (answers 1032 true (fun _ => false))) w1 = Some w2 /\
    inits (calls_since w1 w2) = [2%nat].
Proof.
  eexists. eexists.
  split; [vm_compute; reflexivity |].
  split; [reflexivity |].
  split; [eexists; split; reflexivity |].
  split; [vm_compute; reflexivity |].
  reflexivity.
Qed.

Section InitHooks.

Variables (env : Env) (w : World) (g : Main) (w' : World).

Hypothesis Hgame : game w = Some g.
Hypothesis Hframe : exec (frame env) w = Some w'.

(** C5, as amended: a frame invokes [onInitScene] on exactly the scenes its
    transition rules select, in that order.  The hooks are those of rules
    1 and 2 ([first]) followed by that of rule 3 ([second]): [first] is
    scene 0 when there was no current scene, the end scene whenever the
    game is over and a current scene exists (also when the end scene is
    that current scene), and empty otherwise; [second] is the scene rule 3
    moves to (the scene at the index after the one rules 1 and 2 leave)
    when the scene so resolved, as the hooks of [first] left it, passes
    the interval test and reports completion, and empty otherwise.
    So a scene that becomes current in a frame has its hook invoked in
    that frame, and a frame in which no rule fires invokes none. *)
Theorem init_hook_calls :
  exists g' first second r sc,
    game w' = Some g' /\
    inits (calls_since w w') = first ++ second /\
    (currentScene g = None ->
       exists e, scenes g !! 0%nat = Some e /\ first = [e]) /\
    (currentScene g <> None -> isGameOver env = true ->
       exists e, endScene g = Some e /\ first = [e]) /\
    (currentScene g <> None -> isGameOver env = false -> first = []) /\
    resolved g first = Some r /\
    heap_after_inits first (heap w) !! r = Some sc /\
    (interval_null_or_complete sc && isComplete env r = true ->
       sceneIndex g' = next_index (set_sceneIndex g (index_after_entry env g)) /\
       exists f, scenes g !! Z.to_nat (sceneIndex g') = Some f /\
                 second = [f] /\ currentScene g' = Some f) /\
    (interval_null_or_complete sc && isComplete env r = false ->
       sceneIndex g' = index_after_entry env g /\
       second = [] /\ currentScene g' = Some r) /\
    (forall f, currentScene g' = Some f -> currentScene g <> Some f ->
               In f (inits (calls_since w w'))) /\
    (forall c sc0,
       currentScene g = Some c -> isGameOver env = false ->
       heap w !! c = Some sc0 ->
       interval_null_or_complete sc0 && isComplete env c = false ->
       inits (calls_since w w') = [] /\ currentScene g' = Some c).
Proof.
  destruct (frame_transition env w g w' Hgame Hframe) as (f & i & Htr & Hg').
  remember (inits (calls_since w w')) as l eqn:Hl. clear Hl.
  destruct Htr as [c sc Hc Hover Hsc Hgate | c sc f Hc Hover Hsc Hgate Hf
                  | j e sc Hent Hsc Hstay | j e sc f Hent Hsc Hnone Hdone Hf].
  - (* no rule fires *)
    assert (Hidx : index_after_entry env g = sceneIndex g)
      by (unfold index_after_entry; now rewrite Hc, Hover).
    exists {| scenes := scenes g; endScene := endScene g;
              currentScene := Some c; sceneIndex := sceneIndex g |},
           [], [], c, sc.
    cbn [currentScene sceneIndex resolved heap_after_inits fold_left app].
    rewrite Hgate, Hidx.
    repeat match goal with |- _ /\ _ => split end;
      try congruence; try discriminate; auto.
    intros c' sc0 Hc' _ _ _. split; [reflexivity | congruence].
  - (* rule 3 alone *)
    assert (Hidx : index_after_entry env g = sceneIndex g)
      by (unfold index_after_entry; now rewrite Hc, Hover).
    exists {| scenes := scenes g; endScene := endScene g;
              currentScene := Some f; sceneIndex := next_index g |},
           [], [f], c, sc.
    cbn [currentScene sceneIndex resolved heap_after_inits fold_left app].
    rewrite Hgate, Hidx.
    repeat match goal with |- _ /\ _ => split end;
      try congruence; try discriminate; auto.
    + intros _. split; [reflexivity |]. exists f. auto.
    + intros f' [= <-] _. left. reflexivity.
  - (* rule 1 or rule 2, rule 3 not firing *)
    assert (Hidx : index_after_entry env g = j).
    { unfold index_after_entry.
      destruct Hent as [e Hnone _ | e Hsome Hover _]; [now rewrite Hnone |].
      destruct (currentScene g); [now rewrite Hover | congruence]. }
    assert (Hin : in_heap (heap_after_init e (heap w)) e = true)
      by (rewrite heap_after_init_lookup; unfold in_heap; now rewrite Hsc).
    destruct (in_heap_lookup _ _ Hin) as (sc' & Hsc').
    pose proof (heap_after_init_gate e (heap w) sc sc' Hsc Hsc') as Hg.
    assert (Hgate : interval_null_or_complete sc' && isComplete env e = false).
    { rewrite Hg. destruct Hstay as [Hsome | ->]; [| apply andb_false_r].
      destruct (interval sc); [reflexivity | congruence]. }
    exists {| scenes := scenes g; endScene := endScene g;
              currentScene := Some e; sceneIndex := j |},
           [e], [], e, sc'.
    cbn [currentScene sceneIndex resolved heap_after_inits fold_left app].
    rewrite Hgate, Hidx.
    repeat match goal with |- _ /\ _ => split end;
      try discriminate; auto.
    + intros Hnone. destruct Hent; [eauto | congruence].
    + intros Hcur Hover. destruct Hent; [congruence | eauto].
    + intros Hcur Hover. destruct Hent; congruence.
    + intros f' [= <-] _. left. reflexivity.
    + intros c' sc0 Hc' Hover. destruct Hent; congruence.
  - (* rule 1 or rule 2, then rule 3 *)
    assert (Hidx : index_after_entry env g = j).
    { unfold index_after_entry.
      destruct Hent as [e Hcur _ | e Hsome Hover _]; [now rewrite Hcur |].
      destruct (currentScene g); [now rewrite Hover | congruence]. }
    assert (Hin : in_heap (heap_after_init e (heap w)) e = true)
      by (rewrite heap_after_init_lookup; unfold in_heap; now rewrite Hsc).
    destruct (in_heap_lookup _ _ Hin) as (sc' & Hsc').
    pose proof (heap_after_init_gate e (heap w) sc sc' Hsc Hsc') as Hg.
    assert (Hgate : interval_null_or_complete sc' && isComplete env e = true)
      by (rewrite Hg, Hnone, Hdone; reflexivity).
    exists {| scenes := scenes g; endScene := endScene g;
              currentScene := Some f;
              sceneIndex := next_index (set_sceneIndex g j) |},
           [e], [f], e, sc'.
    cbn [currentScene sceneIndex resolved heap_after_inits fold_left app].
    rewrite Hgate, Hidx.
    repeat match goal with |- _ /\ _ => split end;
      try discriminate; auto.
    + intros Hcur. destruct Hent; [eauto | congruence].
    + intros Hcur Hover. destruct Hent; [congruence | eauto].
    + intros Hcur Hover. destruct Hent; congruence.
    + intros _. split; [reflexivity |]. exists f. auto.
    + intros f' [= <-] _. right. left. reflexivity.
    + intros c' sc0 Hc' Hover. destruct Hent; congruence.
Qed.

End InitHooks.

Lemma init_hook_calls_witness :
  exists w',
    game (demo_world 1000 None (-1)) = Some demo_game /\
    exec (frame (answers 1016 false (fun _ => true))) (demo_world 1000 None (-1))
      = Some w' /\
    inits (calls_since (demo_world 1000 None (-1)) w') = [0%nat; 1%nat].
Proof.
  eexists.
  assert (Hrun : exec (frame (answers 1016 false (fun _ => true)))
                   (demo_world 1000 None (-1)) = Some ?[w'])
    by (vm_compute; reflexivity).
  split; [reflexivity |]. split; [exact Hrun |].
  destruct (init_hook_calls (answers 1016 false (fun _ => true))
              (demo_world 1000 None (-1)) demo_game _ eq_refl Hrun)
    as (g' & first & second & r & sc & Hg' & Hinits & Hfirst & _ & _ & Hr & Hsc
        & Hfires & _).
  destruct (Hfirst eq_refl) as (e & He & ->).
  injection He as <-. injection Hr as <-. injection Hsc as <-.
  destruct (Hfires eq_refl) as (Hidx & f & Hf & -> & _).
  rewrite Hidx in Hf. injection Hf as <-. exact Hinits.
Defined.

(** ** A two-scene sequence *)

Section TwoScenes.

Variables (A B : SceneRef) (env : Env) (w : World) (g : Main).
Variables (scA scB : Scene).

Hypothesis Hwf : well_formed w = true.
Hypothesis Hgame : game w = Some g.
Hypothesis Hscenes : scenes g = [A; B].
Hypothesis HA : heap w !! A = Some scA.
Hypothesis HB : heap w !! B = Some scB.
Hypothesis HAplain : interval scA = None.
Hypothesis HBplain : interval scB = None.
(** The prototype's [isGameOver]. *)
Hypothesis Hover : isGameOver env = false.

Lemma plain_scene_gate sc : interval sc = None -> interval_null_or_complete sc = true.
Proof. unfold interval_null_or_complete. now intros ->. Qed.

(** C4: with scenes [[A; B]] and no intervals, a frame that finds [A]
    current and complete ends on [B] (index 1); a frame that finds [B]
    current and complete wraps to [A] (index 0) and invokes [A]'s init hook
    exactly once; and wherever the world goes from here, the index is the
    sentinel or within [[0, 2)]. *)
Theorem two_scene_cycle :
  (currentScene g = Some A -> sceneIndex g = 0 -> isComplete env A = true ->
     exists w', exec (frame env) w = Some w' /\
       game w' = Some {| scenes := [A; B]; endScene := endScene g;
                         currentScene := Some B; sceneIndex := 1 |} /\
       inits (calls_since w w') = [B]) /\
  (currentScene g = Some B -> sceneIndex g = 1 -> isComplete env B = true ->
     exists w', exec (frame env) w = Some w' /\
       game w' = Some {| scenes := [A; B]; endScene := endScene g;
                         currentScene := Some A; sceneIndex := 0 |} /\
       inits (calls_since w w') = [A]) /\
  (forall w'', rtc step w w'' ->
     exists g'', game w'' = Some g'' /\ scenes g'' = [A; B] /\
                 (sceneIndex g'' = -1 \/ 0 <= sceneIndex g'' < 2)).
Proof.
  split; [| split].
  - intros Hcur Hidx Hdone.
    destruct (frame_total env w Hwf) as (w' & Hw' & _).
    exists w'. split; [exact Hw' |].
    destruct (frame_transition env w g w' Hgame Hw') as (f & i & Htr & Hg').
    destruct (transition_current _ _ _ _ _ _ A scA Htr Hcur Hover HA)
      as [(Hshut & _) | (_ & -> & -> & Hf)].
    + rewrite (plain_scene_gate scA HAplain), Hdone in Hshut. discriminate.
    + unfold next_index in *. rewrite Hscenes, Hidx in *. cbn in Hf, Hg' |- *.
      injection Hf as <-. split; [exact Hg' | reflexivity].
  - intros Hcur Hidx Hdone.
    destruct (frame_total env w Hwf) as (w' & Hw' & _).
    exists w'. split; [exact Hw' |].
    destruct (frame_transition env w g w' Hgame Hw') as (f & i & Htr & Hg').
    destruct (transition_current _ _ _ _ _ _ B scB Htr Hcur Hover HB)
      as [(Hshut & _) | (_ & -> & -> & Hf)].
    + rewrite (plain_scene_gate scB HBplain), Hdone in Hshut. discriminate.
    + unfold next_index in *. rewrite Hscenes, Hidx in *. cbn in Hf, Hg' |- *.
      injection Hf as <-. split; [exact Hg' | reflexivity].
  - intros w'' Hreach.
    assert (Hok : index_ok g = true).
    { destruct (well_formed_inv w Hwf) as (g0 & _ & _ & Hg0 & _ & _ & _ & _ & _ & Hok).
      congruence. }
    destruct (reachable_index_ok w w'' Hreach g Hgame Hok) as (g'' & Hg'' & Hs & _ & Hok'').
    exists g''. split; [exact Hg'' |]. split; [congruence |].
    apply index_ok_inv in Hok''. rewrite Hs, Hscenes in Hok''. exact Hok''.
Qed.

End TwoScenes.

Lemma two_scene_cycle_witness :
  exists w',
    exec (frame (answers 1016 false (fun _ => true))) (demo_world 1000 (Some 1%nat) 1)
      = Some w' /\
    game w' = Some {| scenes := [0%nat; 1%nat]; endScene := Some 2%nat;
                      currentScene := Some 0%nat; sceneIndex := 0 |} /\
    inits (calls_since (demo_world 1000 (Some 1%nat) 1) w') = [0%nat].
Proof.
  exact (proj1 (proj2
    (two_scene_cycle 0%nat 1%nat (answers 1016 false (fun _ => true))
       (demo_world 1000 (Some 1%nat) 1) _ plain_scene plain_scene
       eq_refl eq_refl eq_refl eq_refl eq_refl eq_refl eq_refl eq_refl))
    eq_refl eq_refl eq_refl).
Defined.

(** ** Pause and resume *)

Section PauseResume.

(** While paused, a frame does not ask for another one. *)
Lemma paused_frame_schedules_nothing env w w' :
  paused (handler w) = true -> exec (frame env) w = Some w' ->
  schedules (calls_since w w') = [] /\ pending w' = pending w /\
  paused (handler w') = true.
Proof.
  intros Hp H.
  destruct (frame_summary env w w' H)
    as (e & w1 & f & w2 & g2 & l & H1 & H2 & _ & _ & _ & Hcalls & _ & Hsch & Hpend & Hclk).
  rewrite Hp in Hsch, Hpend.
  apply update_clock_inv in Hclk. cbn in Hclk.
  destruct Hclk as (_ & _ & _ & _ & _ & Hpa & _).
  split; [| split; [exact Hpend | congruence]].
  assert (Hsince : exists k, calls w' = calls w ++ k /\ schedules k = []).
  { destruct (resolve_entry_inv_calls env w e w1 H1) as (k1 & Hk1 & Hs1).
    destruct (resolve_advance_inv_calls env e w1 f w2 H2) as (k2 & Hk2 & Hs2).
    exists (k1 ++ k2 ++ l). split.
    - rewrite Hcalls, Hk2, Hk1. now rewrite <- !app_assoc.
    - rewrite !schedules_app, Hs1, Hs2, Hsch. reflexivity. }
  destruct Hsince as (k & Hk & Hsk).
  now rewrite (calls_since_app w w' k Hk).
Qed.

(** The frame that [pause()] runs on resuming. *)
Lemma resumed_frame_clock now env w w' :
  paused (handler w) = true -> exec (pause now env) w = Some w' ->
  let e := Date_now_start env - now in
  frameMultipler (handler w') = (inject_Z (if e =? 0 then 1 else e) / FPSMS)%Q /\
  frameStart (handler w') = Date_now_start env /\
  frameCount (handler w') = frameCount (handler w) + 1 /\
  paused (handler w') = false /\
  pending w' = S (pending w).
Proof.
  intros Hp H. rewrite pause_paused in H by exact Hp.
  destruct (frame_summary env _ w' H)
    as (e & w1 & f & w2 & g2 & l & _ & _ & _ & _ & _ & _ & _ & _ & Hpend & Hclk).
  apply update_clock_inv in Hclk. cbn in Hclk, Hpend.
  destruct Hclk as (_ & _ & _ & _ & _ & Hpa & _ & _ & Hcount & Hmul & Hstart & _).
  cbn zeta. auto.
Qed.

(** C9: [pause()] on a running game only sets the flag; frames that run
    while paused schedule nothing; [pause()] on a paused game unpauses,
    primes the clock with the current time and runs a frame at once, whose
    [frameMultipler] is determined by the time between those two clock
    readings alone.  Hence two resumptions, after pauses of any lengths and
    from any paused worlds, yield the same [frameMultipler]. *)
Theorem pause_resume_frameMultipler :
  (forall now env w,
     paused (handler w) = false ->
     exec (pause now env) w = Some (suspended w) /\
     calls (suspended w) = calls w /\ pending (suspended w) = pending w /\
     paused (handler (suspended w)) = true) /\
  (forall env w w',
     paused (handler w) = true -> exec (frame env) w = Some w' ->
     schedules (calls_since w w') = [] /\ pending w' = pending w /\
     paused (handler w') = true) /\
  (forall now env w,
     paused (handler w) = true -> well_formed w = true ->
     exists w', exec (pause now env) w = Some w') /\
  (forall now env w w',
     paused (handler w) = true -> exec (pause now env) w = Some w' ->
     paused (handler w') = false /\
     frameCount (handler w') = frameCount (handler w) + 1 /\
     pending w' = S (pending w)) /\
  (forall now1 now2 env1 env2 w1 w2 w1' w2',
     paused (handler w1) = true -> paused (handler w2) = true ->
     Date_now_start env1 - now1 = Date_now_start env2 - now2 ->
     exec (pause now1 env1) w1 = Some w1' ->
     exec (pause now2 env2) w2 = Some w2' ->
     frameMultipler (handler w1') = frameMultipler (handler w2')).
Proof.
  split; [| split; [| split; [| split]]].
  - intros now env w Hp. split; [now apply pause_running |].
    cbn. auto.
  - apply paused_frame_schedules_nothing.
  - intros now env w Hp Hwf. rewrite pause_paused by exact Hp.
    destruct (frame_total env (resumed w now)) as (w' & Hw' & _); [| eauto].
    rewrite <- Hwf. apply well_formed_ext; reflexivity.
  - intros now env w w' Hp H.
    destruct (resumed_frame_clock now env w w' Hp H) as (_ & _ & ? & ? & ?). auto.
  - intros now1 now2 env1 env2 w1 w2 w1' w2' Hp1 Hp2 Hlat H1 H2.
    destruct (resumed_frame_clock now1 env1 w1 w1' Hp1 H1) as (Hm1 & _).
    destruct (resumed_frame_clock now2 env2 w2 w2' Hp2 H2) as (Hm2 & _).
    cbn zeta in Hm1, Hm2. rewrite Hm1, Hm2, Hlat. reflexivity.
Qed.

End PauseResume.

Lemma pause_resume_frameMultipler_witness :
  exists w1' w2',
    paused (handler (paused_world 1000)) = true /\
    exec (pause 6000 (Env_default 6003 6003)) (paused_world 1000) = Some w1' /\
    exec (pause 3600000 (Env_default 3600003 3600003)) (paused_world 1000) = Some w2' /\
    frameMultipler (handler w1') = frameMultipler (handler w2').
Proof.
  eexists. eexists.
  assert (Hrun1 : exec (pause 6000 (Env_default 6003 6003)) (paused_world 1000)
                  = Some ?[w1'])
    by (vm_compute; reflexivity).
  assert (Hrun2 : exec (pause 3600000 (Env_default 3600003 3600003)) (paused_world 1000)
                  = Some ?[w2'])
    by (vm_compute; reflexivity).
  split; [reflexivity |]. split; [exact Hrun1 |]. split; [exact Hrun2 |].
  exact (proj2 (proj2 (proj2 (proj2 pause_resume_frameMultipler)))
           6000 3600000 (Env_default 6003 6003) (Env_default 3600003 3600003)
           (paused_world 1000) (paused_world 1000) _ _
           eq_refl eq_refl eq_refl Hrun1 Hrun2).
Defined.


(** * Further properties of the library *)

(** ** Sprites over many frames *)

Lemma renderSprite_fields gh ctx a x y s :
  snd (renderSprite gh ctx a x y s)
  = set_animFrame a (animFrame (snd (renderSprite gh ctx a x y s))).
Proof.
  unfold renderSprite; cbn [snd].
  destruct (animForward a); cbn [animFrame animLength set_animFrame];
    match goal with |- context [if ?c then _ else _] => destruct c end;
    reflexivity.
Qed.

Lemma renderSprite_range gh ctx a x y s :
  (0 <= animSpeed a * frameMultipler gh)%Q ->
  (animForward a = false -> (1 <= animLength a)%Q) ->
  (0 <= animFrame a)%Q -> (animFrame a < animLength a)%Q ->
  (0 <= animFrame (snd (renderSprite gh ctx a x y s)))%Q /\
  (animFrame (snd (renderSprite gh ctx a x y s)) < animLength a)%Q.
Proof.
  intros Hstep Hback H0 Hlen.
  unfold renderSprite; cbn [snd].
  destruct (animForward a) eqn:Hdir; cbn [animFrame animLength set_animFrame].
  - destruct (JS.geb _ _) eqn:Hwrap; js_compare; cbn [animFrame set_animFrame]; lra.
  - specialize (Hback eq_refl).
    destruct (JS.ltb _ _) eqn:Hwrap; js_compare; cbn [animFrame set_animFrame]; lra.
Qed.

Section SpriteFrames.

Variables (ctx0 : Ctx) (x y s : Q).

(** X1: rendered with non-negative steps, a sprite whose frame starts within
    [[0, animLength)] keeps it there for ever (going backward needs
    [animLength >= 1]); nothing else of the sprite changes, and for strips
    of at most 2^25 frames the sampled tile starts inside the strip. *)
Theorem renderSprites_frame_in_range ghs : forall ctx a,
  Forall (fun gh => (0 <= animSpeed a * frameMultipler gh)%Q) ghs ->
  (animForward a = false -> (1 <= animLength a)%Q) ->
  (0 <= animFrame a)%Q -> (animFrame a < animLength a)%Q ->
  let a' := snd (renderSprites ghs ctx a x y s) in
  (0 <= animFrame a')%Q /\ (animFrame a' < animLength a)%Q /\
  a' = set_animFrame a (animFrame a') /\
  ((animLength a <= 33554432)%Q ->
     0 <= spriteSourceY a' /\
     (inject_Z (spriteSourceY a') < 64 * animLength a)%Q).
Proof.
  induction ghs as [| gh ghs IH]; intros ctx a Hsteps Hback H0 Hlen; cbn zeta.
  - cbn [renderSprites snd]. split; [exact H0 |]. split; [exact Hlen |].
    split; [destruct a; reflexivity |].
    intros Hbig.
    rewrite spriteSourceY_in_range by lra.
    assert (Hn : (animFrame a < inject_Z 33554432)%Q)
      by (change (inject_Z 33554432) with 33554432%Q; lra).
    pose proof (Qfloor_range (animFrame a) 33554432 H0 Hn) as Hr.
    split; [lia |].
    rewrite inject_Z_mult.
    pose proof (Qfloor_le (animFrame a)) as Hfl.
    change (inject_Z 64) with 64%Q. lra.
  - cbn [renderSprites].
    destruct (renderSprite gh ctx a x y s) as [ctx1 a1] eqn:Hstep.
    pose proof (renderSprite_range gh ctx a x y s) as Hr.
    pose proof (renderSprite_fields gh ctx a x y s) as Hf.
    rewrite Hstep in Hr, Hf. cbn [snd] in Hr, Hf.
    apply Forall_cons in Hsteps as [Hgh Hrest].
    destruct (Hr Hgh Hback H0 Hlen) as [H0' Hlen'].
    assert (Hlen1 : animLength a1 = animLength a) by (rewrite Hf; reflexivity).
    assert (Hdir1 : animForward a1 = animForward a) by (rewrite Hf; reflexivity).
    assert (Hsp1 : animSpeed a1 = animSpeed a) by (rewrite Hf; reflexivity).
    specialize (IH ctx1 a1). rewrite Hlen1, Hdir1, Hsp1 in IH.
    destruct (IH Hrest Hback H0' Hlen') as (Ha & Hb & Hc & Hd).
    split; [exact Ha |]. split; [exact Hb |]. split; [| exact Hd].
    rewrite Hc. rewrite Hf. reflexivity.
Qed.

End SpriteFrames.

Lemma renderSprites_frame_in_range_witness :
  let ghs := [field 800 600; field 800 600; field 800 600] in
  let a := sprite 10 true (7 # 2) 9 in
  Forall (fun gh => (0 <= animSpeed a * frameMultipler gh)%Q) ghs /\
  (0 <= animFrame (snd (renderSprites ghs [] a 0 0 64)))%Q /\
  (animFrame (snd (renderSprites ghs [] a 0 0 64)) < 10)%Q.
Proof.
  cbn zeta.
  assert (Hsteps : Forall (fun gh => (0 <= animSpeed (sprite 10 true (7 # 2) 9)
                                           * frameMultipler gh)%Q)
                     [field 800 600; field 800 600; field 800 600]).
  { repeat (apply List.Forall_cons; [cbn; lra |]). apply List.Forall_nil. }
  split; [exact Hsteps |].
  destruct (renderSprites_frame_in_range 0 0 64
              [field 800 600; field 800 600; field 800 600] [] (sprite 10 true (7 # 2) 9)
              Hsteps ltac:(discriminate) ltac:(cbn; lra) ltac:(cbn; lra))
    as (Ha & Hb & _).
  split; [exact Ha | exact Hb].
Defined.

(** ** Effects over time *)

Section EffectOverTime.

Variables (e : EffectActor) (v : Q).

Hypothesis HL : (0 < lifespan e)%Q.
Hypothesis Hv : (0 <= v)%Q.

Lemma effect_slope : (0 <= v / lifespan e)%Q /\ (v / lifespan e * lifespan e == v)%Q.
Proof.
  split.
  - apply Qle_shift_div_l; [exact HL | lra].
  - field. intros H0. rewrite H0 in HL. exact (Qlt_irrefl _ HL).
Qed.

(** X3: the value of an effect never grows as the clock advances. *)
Theorem effectValue_nonincreasing gh1 gh2 :
  frameStart gh1 <= frameStart gh2 ->
  (effectValue gh2 e v <= effectValue gh1 e v)%Q.
Proof.
  intros Hclock.
  destruct effect_slope as [Hk0 _].
  assert (Hage : (effectAge gh1 e <= effectAge gh2 e)%Q).
  { unfold effectAge. rewrite <- Zle_Qle. lia. }
  assert (Hmul : (v / lifespan e * effectAge gh1 e
                  <= v / lifespan e * effectAge gh2 e)%Q).
  { rewrite !(Qmult_comm (v / lifespan e)).
    apply Qmult_le_compat_r; assumption. }
  unfold effectValue. fold (effectAge gh1 e). fold (effectAge gh2 e).
  generalize dependent (v / lifespan e * effectAge gh1 e)%Q.
  generalize dependent (v / lifespan e * effectAge gh2 e)%Q.
  intros d2 d1 Hd.
  destruct (JS.ltb (v - d2) 0) eqn:H2lo, (JS.ltb (v - d1) 0) eqn:H1lo;
    [| destruct (JS.gtb (v - d1) v) eqn:H1hi
     | destruct (JS.gtb (v - d2) v) eqn:H2hi
     | destruct (JS.gtb (v - d2) v) eqn:H2hi, (JS.gtb (v - d1) v) eqn:H1hi];
    js_compare; lra.
Qed.

End EffectOverTime.

Lemma effectValue_nonincreasing_witness :
  (0 < lifespan (EffectActor_new (clock_at 0) (mkVector 0 0) (mkVector 0 0) 1000))%Q /\
  (0 <= 100)%Q /\ frameStart (clock_at 250) <= frameStart (clock_at 500) /\
  (effectValue (clock_at 500)
     (EffectActor_new (clock_at 0) (mkVector 0 0) (mkVector 0 0) 1000) 100
   <= effectValue (clock_at 250)
        (EffectActor_new (clock_at 0) (mkVector 0 0) (mkVector 0 0) 1000) 100)%Q.
Proof.
  assert (HL : (0 < lifespan (EffectActor_new (clock_at 0) (mkVector 0 0)
                                (mkVector 0 0) 1000))%Q) by (cbn; lra).
  assert (Hv : (0 <= 100)%Q) by lra.
  assert (Hclock : frameStart (clock_at 250) <= frameStart (clock_at 500)) by (cbn; lia).
  split; [exact HL |]. split; [exact Hv |]. split; [exact Hclock |].
  exact (effectValue_nonincreasing _ 100 HL Hv (clock_at 250) (clock_at 500) Hclock).
Defined.

(** ** Wrapped copies at the corners *)

Section Corners.

Variables (gh : GameHandlerT) (image : Image) (nx ny ns x y s : Q).

(** X6: a sprite across the top-left or the bottom-right corner gets three
    copies, one of them displaced along both axes; across a mixed corner
    (left with bottom, right with top) it gets the two copies displaced
    along one axis only, and none displaced along both. *)
Theorem renderImage_corner_copies ctx :
  ((x < 0)%Q -> (y < 0)%Q -> (x + s <= width gh)%Q -> (y + s <= height gh)%Q ->
     Util.renderImage gh ctx image nx ny ns x y s
     = ctx ++ [blit image nx ny ns x y s;
               blit image nx ny ns (width gh + x) y s;
               blit image nx ny ns x (height gh + y) s;
               blit image nx ny ns (width gh + x) (height gh + y) s]) /\
  ((0 <= x)%Q -> (0 <= y)%Q -> (width gh < x + s)%Q -> (height gh < y + s)%Q ->
     Util.renderImage gh ctx image nx ny ns x y s
     = ctx ++ [blit image nx ny ns x y s;
               blit image nx ny ns (x - width gh) y s;
               blit image nx ny ns x (y - height gh) s;
               blit image nx ny ns (x - width gh) (y - height gh) s]) /\
  ((x < 0)%Q -> (0 <= y)%Q -> (x + s <= width gh)%Q -> (height gh < y + s)%Q ->
     Util.renderImage gh ctx image nx ny ns x y s
     = ctx ++ [blit image nx ny ns x y s;
               blit image nx ny ns (width gh + x) y s;
               blit image nx ny ns x (y - height gh) s]) /\
  ((0 <= x)%Q -> (y < 0)%Q -> (width gh < x + s)%Q -> (y + s <= height gh)%Q ->
     Util.renderImage gh ctx image nx ny ns x y s
     = ctx ++ [blit image nx ny ns x y s;
               blit image nx ny ns x (height gh + y) s;
               blit image nx ny ns (x - width gh) y s]).
Proof.
  rewrite renderImage_cases.
  split; [| split; [| split]]; intros Hx Hy Hxs Hys.
  - apply ltb_true in Hx. apply ltb_true in Hy.
    apply gtb_false in Hxs. apply gtb_false in Hys.
    rewrite Hx, Hy, Hxs, Hys. reflexivity.
  - apply ltb_false in Hx. apply ltb_false in Hy.
    apply gtb_true in Hxs. apply gtb_true in Hys.
    rewrite Hx, Hy, Hxs, Hys. reflexivity.
  - apply ltb_true in Hx. apply ltb_false in Hy.
    apply gtb_false in Hxs. apply gtb_true in Hys.
    rewrite Hx, Hy, Hxs, Hys. reflexivity.
  - apply ltb_false in Hx. apply ltb_true in Hy.
    apply gtb_true in Hxs. apply gtb_false in Hys.
    rewrite Hx, Hy, Hxs, Hys. reflexivity.
Qed.

End Corners.

Lemma renderImage_corner_copies_witness :
  (-5 < 0)%Q /\ (0 <= 560)%Q /\
  (-5 + 64 <= width (field 800 600))%Q /\ (height (field 800 600) < 560 + 64)%Q /\
  Util.renderImage (field 800 600) [] 7%nat 0 0 64 (-5) 560 64
  = [blit 7%nat 0 0 64 (-5) 560 64;
     blit 7%nat 0 0 64 (800 + -5) 560 64;
     blit 7%nat 0 0 64 (-5) (560 - 600) 64].
Proof.
  assert (Hx : (-5 < 0)%Q) by lra.
  assert (Hy : (0 <= 560)%Q) by lra.
  assert (Hxs : (-5 + 64 <= width (field 800 600))%Q) by (cbn; lra).
  assert (Hys : (height (field 800 600) < 560 + 64)%Q) by (cbn; lra).
  split; [exact Hx |]. split; [exact Hy |]. split; [exact Hxs |]. split; [exact Hys |].
  exact (proj1 (proj2 (proj2 (renderImage_corner_copies (field 800 600) 7%nat 0 0 64
                                (-5) 560 64 [])))
           Hx Hy Hxs Hys).
Defined.

(** ** The rotated blit *)

Section RenderImageRotated.

Variables (gh : GameHandlerT) (image : Image) (w h r : Q).

Local Abbreviation W := (width gh).
Local Abbreviation H := (height gh).
Local Abbreviation pass := (rotated_pass image w h r).
Local Abbreviation w2 := (w * (1 # 2))%Q.
Local Abbreviation h2 := (h * (1 # 2))%Q.

Lemma renderImageRotated_cases ctx x y :
  renderImageRotated gh ctx image x y w h r =
  ctx ++ pass x y ++
    (if JS.ltb (x - w2) 0 then pass (W + x)%Q y else []) ++
    (if JS.ltb (y - h2) 0 then pass x (H + y)%Q else []) ++
    (if JS.ltb (x - w2) 0 && JS.ltb (y - h2) 0
     then pass (W + x)%Q (H + y)%Q else []) ++
    (if JS.gtb (x - w2 + w) W then pass (x - W)%Q y else []) ++
    (if JS.gtb (y - h2 + h) H then pass x (y - H)%Q else []) ++
    (if JS.gtb (x - w2 + w) W && JS.gtb (y - h2 + h) H
     then pass (x - W)%Q (y - H)%Q else []).
Proof.
  unfold renderImageRotated, rf, rotated_pass.
  destruct (JS.ltb (x - w2) 0), (JS.ltb (y - h2) 0),
           (JS.gtb (x - w2 + w) W), (JS.gtb (y - h2 + h) H);
    cbn [andb]; repeat rewrite <- app_assoc; reflexivity.
Qed.

(** X7: the rotated blit is a sequence of whole passes (save, translate,
    rotate, draw about the centre, restore), the first about [(x, y)]; the
    passes that follow number at most six, at most three when the image is
    no larger than the field, and none exactly when the bounding box about
    the centre lies within the field. *)
Theorem renderImageRotated_passes ctx x y :
  exists centres : list (Q * Q),
    renderImageRotated gh ctx image x y w h r
    = ctx ++ concat (map (fun c => pass (fst c) (snd c)) ((x, y) :: centres)) /\
    (length centres <= 6)%nat /\
    ((w <= W)%Q -> (h <= H)%Q -> (length centres <= 3)%nat) /\
    (centres = [] <->
     (0 <= x - w2 /\ x - w2 + w <= W /\ 0 <= y - h2 /\ y - h2 + h <= H)%Q).
Proof.
  exists ((if JS.ltb (x - w2) 0 then [((W + x)%Q, y)] else []) ++
          (if JS.ltb (y - h2) 0 then [(x, (H + y)%Q)] else []) ++
          (if JS.ltb (x - w2) 0 && JS.ltb (y - h2) 0
           then [((W + x)%Q, (H + y)%Q)] else []) ++
          (if JS.gtb (x - w2 + w) W then [((x - W)%Q, y)] else []) ++
          (if JS.gtb (y - h2 + h) H then [(x, (y - H)%Q)] else []) ++
          (if JS.gtb (x - w2 + w) W && JS.gtb (y - h2 + h) H
           then [((x - W)%Q, (y - H)%Q)] else [])).
  rewrite renderImageRotated_cases.
  destruct (JS.ltb (x - w2) 0) eqn:Ex, (JS.ltb (y - h2) 0) eqn:Ey,
           (JS.gtb (x - w2 + w) W) eqn:Ew, (JS.gtb (y - h2 + h) H) eqn:Eh;
    cbn [andb app map concat fst snd length]; js_compare;
    (split; [rewrite ?app_nil_r; reflexivity |]);
    (split; [lia |]);
    (split; [intros; try lia; exfalso; lra |]);
    (split; [try discriminate; intros _; repeat split; assumption
            | intros (? & ? & ? & ?); try reflexivity; exfalso; lra]).
Qed.

End RenderImageRotated.

(** X8: the rotated blit of a square of side [s] about [(x, y)] wraps in
    exactly the cases in which the plain blit of the square with corner
    [(x - s / 2, y - s / 2)] does: the same displacements, in the same
    order, applied to the centre in the one and to the corner in the other. *)
Theorem renderImageRotated_agrees_with_renderImage gh image nx ny ns x y s r :
  exists shifts : list Shift,
    renderImageRotated gh [] image x y s s r
    = rotated_pass image s s r x y ++
      concat (map (fun sh => rotated_pass image s s r (shift_x gh sh x) (shift_y gh sh y))
                shifts) /\
    Util.renderImage gh [] image nx ny ns (x - s * (1 # 2)) (y - s * (1 # 2)) s
    = blit image nx ny ns (x - s * (1 # 2)) (y - s * (1 # 2)) s ::
      map (fun sh => blit image nx ny ns (shift_x gh sh (x - s * (1 # 2)))
                       (shift_y gh sh (y - s * (1 # 2))) s)
        shifts.
Proof.
  exists ((if JS.ltb (x - s * (1 # 2)) 0 then [ShiftLeftEdge] else []) ++
          (if JS.ltb (y - s * (1 # 2)) 0 then [ShiftTopEdge] else []) ++
          (if JS.ltb (x - s * (1 # 2)) 0 && JS.ltb (y - s * (1 # 2)) 0
           then [ShiftTopLeft] else []) ++
          (if JS.gtb (x - s * (1 # 2) + s) (width gh) then [ShiftRightEdge] else []) ++
          (if JS.gtb (y - s * (1 # 2) + s) (height gh) then [ShiftBottomEdge] else []) ++
          (if JS.gtb (x - s * (1 # 2) + s) (width gh)
              && JS.gtb (y - s * (1 # 2) + s) (height gh)
           then [ShiftBottomRight] else [])).
  rewrite renderImageRotated_cases, renderImage_cases.
  destruct (JS.ltb (x - s * (1 # 2)) 0), (JS.ltb (y - s * (1 # 2)) 0),
           (JS.gtb (x - s * (1 # 2) + s) (width gh)),
           (JS.gtb (y - s * (1 # 2) + s) (height gh));
    split; reflexivity.
Qed.

Lemma renderImageRotated_passes_witness :
  exists centres : list (Q * Q),
    (64 <= width (field 800 600))%Q /\ (64 <= height (field 800 600))%Q /\
    renderImageRotated (field 800 600) [] 7%nat 27 100 64 64 (1 # 2)
    = concat (map (fun c => rotated_pass 7%nat 64 64 (1 # 2) (fst c) (snd c))
                ((27%Q, 100%Q) :: centres)) /\
    (length centres <= 3)%nat.
Proof.
  destruct (renderImageRotated_passes (field 800 600) 7%nat 64 64 (1 # 2) [] 27 100)
    as (centres & Heq & _ & Hsmall & _).
  assert (HW : (64 <= width (field 800 600))%Q) by (cbn; lra).
  assert (HH : (64 <= height (field 800 600))%Q) by (cbn; lra).
  exists centres. split; [exact HW |]. split; [exact HH |].
  split; [exact Heq | exact (Hsmall HW HH)].
Defined.

(** ** GameHandler.init *)



(** ** Key events *)

Section KeyDispatch.

Variables (method : SceneRef -> Z -> KeyCall) (handled : SceneRef -> Z -> bool).
Variables (window_event : option KeyEvent) (event : EventArg) (me : Main).

(** X10: a key handler throws exactly when it is called without an
    argument, when it is called with [null] while [window.event] is
    undefined, or when the scene index is neither the sentinel nor a
    position of the scene list. *)
Theorem key_dispatch_throws_iff :
  key_dispatch method handled window_event event me = None <->
  event = EventUndefined \/
  (event = EventNull /\ window_event = None) \/
  (sceneIndex me <> -1 /\
   (sceneIndex me < 0 \/ Z.of_nat (length (scenes me)) <= sceneIndex me)).
Proof.
  unfold key_dispatch, event_keyCode.
  destruct event as [| | ev], window_event as [wev |]; cbn;
    try (split; [intros _; left; reflexivity | reflexivity]);
    try (split; [intros _; right; left; split; reflexivity | reflexivity]).
  all: destruct (Z.eqb_spec (sceneIndex me) (-1)) as [Hs | Hs]; cbn.
  all: try (split; [discriminate
                   | intros [? | [[? ?] | [? ?]]]; congruence]).
  all: destruct (Z.ltb_spec (sceneIndex me) 0) as [Hneg | Hpos].
  all: try (split; [intros _; right; right; split; [exact Hs | left; exact Hneg]
                   | reflexivity]).
  all: destruct (scenes me !! Z.to_nat (sceneIndex me)) as [c |] eqn:Hc.
  all: try (apply lookup_lt_Some in Hc;
            split; [destruct (handled c _); discriminate
                   | intros [? | [[? ?] | [_ [? | ?]]]]; try discriminate; lia]).
  all: apply lookup_ge_None in Hc;
       split; [intros _; right; right; split; [exact Hs | right; lia] | reflexivity].
Qed.

(** X11: with the index at the sentinel -- before the first frame and while
    the end scene is current -- a key event reaches no scene; otherwise the
    scene at the index is offered the key, and the default action is
    prevented exactly when it reports the key handled and the event object
    was passed in. *)
Theorem key_dispatch_target keyCode' :
  event_keyCode window_event event = Some keyCode' ->
  (sceneIndex me = -1 ->
     key_dispatch method handled window_event event me = Some []) /\
  (forall c,
     0 <= sceneIndex me -> scenes me !! Z.to_nat (sceneIndex me) = Some c ->
     key_dispatch method handled window_event event me
     = Some (method c keyCode' ::
             if handled c keyCode' && event_truthy event
             then [PreventDefault; StopPropagation] else [])).
Proof.
  intros Hk. unfold key_dispatch. rewrite Hk. split.
  - intros ->. reflexivity.
  - intros c Hpos Hc.
    destruct (Z.eqb_spec (sceneIndex me) (-1)) as [Hs | Hs]; [lia |]. cbn.
    destruct (Z.ltb_spec (sceneIndex me) 0) as [Hneg | _]; [lia |].
    rewrite Hc. destruct (handled c keyCode'), event; reflexivity.
Qed.

End KeyDispatch.

Lemma key_dispatch_throws_iff_witness :
  onkeydown (fun _ _ => false) (Some (mkKeyEvent 32)) EventUndefined demo_game = None /\
  onkeydown (fun _ _ => false) None EventNull demo_game = None /\
  onkeyup (fun _ _ => false) None (EventObject (mkKeyEvent 32))
    {| scenes := [0%nat; 1%nat]; endScene := Some 2%nat;
       currentScene := Some 1%nat; sceneIndex := 5 |} = None.
Proof.
  split; [| split].
  - apply (key_dispatch_throws_iff OnKeyDownHandler (fun _ _ => false)
             (Some (mkKeyEvent 32)) EventUndefined demo_game).
    left. reflexivity.
  - apply (key_dispatch_throws_iff OnKeyDownHandler (fun _ _ => false) None EventNull
             demo_game).
    right. left. split; reflexivity.
  - apply (key_dispatch_throws_iff OnKeyUpHandler (fun _ _ => false) None
             (EventObject (mkKeyEvent 32))).
    right. right. cbn. lia.
Defined.

Lemma key_dispatch_target_witness :
  event_keyCode None (EventObject (mkKeyEvent 32)) = Some 32 /\
  onkeydown (fun _ _ => true) None (EventObject (mkKeyEvent 32)) demo_game = Some [] /\
  onkeydown (fun _ _ => true) None (EventObject (mkKeyEvent 32))
    {| scenes := [0%nat; 1%nat]; endScene := Some 2%nat;
       currentScene := Some 1%nat; sceneIndex := 1 |}
  = Some [OnKeyDownHandler 1%nat 32; PreventDefault; StopPropagation].
Proof.
  split; [reflexivity |]. split.
  - exact (proj1 (key_dispatch_target OnKeyDownHandler (fun _ _ => true) None
                    (EventObject (mkKeyEvent 32)) demo_game 32 eq_refl) eq_refl).
  - exact (proj2 (key_dispatch_target OnKeyDownHandler (fun _ _ => true) None
                    (EventObject (mkKeyEvent 32))
                    {| scenes := [0%nat; 1%nat]; endScene := Some 2%nat;
                       currentScene := Some 1%nat; sceneIndex := 1 |} 32 eq_refl)
             1%nat ltac:(cbn; lia) eq_refl).
Defined.

(** ** The image preloader *)

Lemma onload_inv p p' :
  onload p = Some p' ->
  images p' = images p /\ callback p' = callback p /\ counter p' = counter p + 1 /\
  called p' = called p ++
    (if counter p + 1 =? Z.of_nat (length (images p))
     then match callback p with Some fn => [fn] | None => [] end
     else []).
Proof.
  unfold onload.
  destruct (counter p + 1 =? Z.of_nat (length (images p)));
    [destruct (callback p); [| discriminate] |];
    intros [= <-]; cbn; rewrite ?app_nil_r; auto.
Qed.

Lemma onload_with_callback p fn :
  callback p = Some fn -> exists p1, onload p = Some p1.
Proof.
  intros Hcb. unfold onload. rewrite Hcb.
  destruct (counter p + 1 =? Z.of_nat (length (images p))); eauto.
Qed.

Lemma onloads_called fn : forall k p,
  callback p = Some fn ->
  exists p', onloads k p = Some p' /\
    images p' = images p /\ callback p' = Some fn /\
    counter p' = counter p + Z.of_nat k /\
    called p' = called p ++
      (if (counter p <? Z.of_nat (length (images p))) &&
          (Z.of_nat (length (images p)) <=? counter p + Z.of_nat k)
       then [fn] else []).
Proof.
  induction k as [| k IH]; intros p Hcb.
  - exists p. cbn [onloads]. split; [reflexivity |].
    repeat split; try assumption; try lia.
    destruct (Z.ltb_spec (counter p) (Z.of_nat (length (images p))));
      destruct (Z.leb_spec (Z.of_nat (length (images p))) (counter p + Z.of_nat 0));
      cbn; try lia; now rewrite app_nil_r.
  - cbn [onloads].
    destruct (onload p) as [p1 |] eqn:H1.
    2:{ destruct (onload_with_callback p fn Hcb) as [p1 Hp1]. congruence. }
    destruct (onload_inv p p1 H1) as (Hi & Hc & Hn & Hcalled).
    rewrite Hcb in Hcalled.
    destruct (IH p1 ltac:(congruence)) as (p' & Hrun & Hi' & Hc' & Hn' & Hcalled').
    exists p'. split; [exact Hrun |].
    split; [congruence |]. split; [exact Hc' |]. split; [lia |].
    rewrite Hcalled', Hcalled, Hi, Hn, <- app_assoc. f_equal.
    destruct (Z.eqb_spec (counter p + 1) (Z.of_nat (length (images p))));
      destruct (Z.ltb_spec (counter p + 1) (Z.of_nat (length (images p))));
      destruct (Z.ltb_spec (counter p) (Z.of_nat (length (images p))));
      destruct (Z.leb_spec (Z.of_nat (length (images p)))
                  (counter p + 1 + Z.of_nat k));
      destruct (Z.leb_spec (Z.of_nat (length (images p)))
                  (counter p + Z.of_nat (S k)));
      cbn; try lia; reflexivity.
Qed.

Lemma load_images_inv : forall l h h',
  load_images l h = Some h' ->
  (forall r, In r l -> exists i, h' !! r = Some i /\ img_src i = img_url i) /\
  (forall r, ~ In r l -> h' !! r = h !! r) /\
  (forall r i, h !! r = Some i ->
     exists i', h' !! r = Some i' /\ img_url i' = img_url i).
Proof.
  induction l as [| r0 l IH]; intros h h' H; cbn [load_images] in H.
  - injection H as <-. split; [intros r [] |]. split; [reflexivity | eauto].
  - destruct (h !! r0) as [i0 |] eqn:H0; [| discriminate].
    destruct (IH _ _ H) as (Hin & Hout & Hurl).
    split; [| split].
    + intros r [<- | Hr].
      * destruct (Hurl r0 {| img_url := img_url i0; img_src := img_url i0 |})
          as (i' & Hi' & Hu); [apply lookup_insert_eq |].
        destruct (in_dec Nat.eq_dec r0 l) as [Hl | Hl]; [apply Hin; exact Hl |].
        exists {| img_url := img_url i0; img_src := img_url i0 |}.
        split; [| reflexivity].
        rewrite (Hout r0 Hl). apply lookup_insert_eq.
      * apply Hin. exact Hr.
    + intros r Hr. rewrite Hout by (intros Hl; apply Hr; right; exact Hl).
      apply lookup_insert_ne. intros ->. apply Hr. left. reflexivity.
    + intros r i Hi.
      destruct (decide (r0 = r)) as [<- | Hne].
      * destruct (Hurl r0 {| img_url := img_url i0; img_src := img_url i0 |})
          as (i' & Hi' & Hu); [apply lookup_insert_eq |].
        exists i'. split; [exact Hi' |]. cbn in Hu. congruence.
      * apply Hurl. rewrite lookup_insert_ne by exact Hne. exact Hi.
Qed.

Section Preloading.

Variables (fn : nat) (p : Preloader) (h : gmap ImgRef Img).
Variables (p' : Preloader) (h' : gmap ImgRef Img).

Hypothesis Hstart : onLoadCallback fn (p, h) = Some (p', h').

Lemma onLoadCallback_inv :
  load_images (images p) h = Some h' /\
  p' = {| images := images p; callback := Some fn; counter := 0;
          called := called p |}.
Proof.
  unfold onLoadCallback in Hstart.
  destruct (load_images (images p) h) as [h1 |]; [| discriminate].
  injection Hstart as <- <-. auto.
Qed.

(** X13: once [onLoadCallback(fn)] has run, [fn] is called exactly once, by
    the load that brings the count to the number of registered images; it
    is never called when no image is registered, and loads counted before
    [onLoadCallback] are forgotten. *)
Theorem preloader_calls_back_once k :
  exists q,
    onloads k p' = Some q /\
    called q = called p ++
      (if (1 <=? Z.of_nat (length (images p))) &&
          (Z.of_nat (length (images p)) <=? Z.of_nat k)
       then [fn] else []).
Proof.
  destruct onLoadCallback_inv as [_ ->].
  destruct (onloads_called fn k
              {| images := images p; callback := Some fn; counter := 0;
                 called := called p |} eq_refl)
    as (q & Hq & _ & _ & _ & Hcalled).
  exists q. split; [exact Hq |]. cbn in Hcalled. rewrite Hcalled. f_equal.
  destruct (Z.ltb_spec 0 (Z.of_nat (length (images p))));
    destruct (Z.leb_spec 1 (Z.of_nat (length (images p)))); try lia; reflexivity.
Qed.

End Preloading.

(** X14: [onLoadCallback] points every registered image's [src] at the url
    stored on it, keeps every url, and leaves all other images alone. *)
Theorem onLoadCallback_sets_sources fn p h p' h' :
  onLoadCallback fn (p, h) = Some (p', h') ->
  (forall r, In r (images p) ->
     exists i, h' !! r = Some i /\ img_src i = img_url i) /\
  (forall r i, h !! r = Some i ->
     exists i', h' !! r = Some i' /\ img_url i' = img_url i) /\
  (forall r, ~ In r (images p) -> h' !! r = h !! r).
Proof.
  intros Hstart.
  destruct (onLoadCallback_inv _ _ _ _ _ Hstart) as [Hload _].
  destruct (load_images_inv _ _ _ Hload) as (Hin & Hout & Hurl). auto.
Qed.

Lemma preloader_calls_back_once_witness :
  exists st q,
    onLoadCallback 7%nat
      ({| images := [0%nat; 1%nat]; callback := None; counter := 1; called := [] |},
       two_images) = Some st /\
    onloads 2 (fst st) = Some q /\ called q = [7%nat].
Proof.
  eexists.
  assert (Hstart : onLoadCallback 7%nat
            ({| images := [0%nat; 1%nat]; callback := None; counter := 1; called := [] |},
             two_images) = Some (?[p'], ?[h'])) by (vm_compute; reflexivity).
  destruct (preloader_calls_back_once 7%nat _ _ _ _ Hstart 2) as (q & Hq & Hcalled).
  exists q. split; [exact Hstart |]. split; [exact Hq | exact Hcalled].
Defined.

Lemma onLoadCallback_sets_sources_witness :
  exists st i,
    onLoadCallback 7%nat
      ({| images := [0%nat]; callback := None; counter := 0; called := [] |},
       <[0%nat := mkImg (Some String.EmptyString) None]> two_images) = Some st /\
    snd st !! 0%nat = Some i /\ img_src i = img_url i.
Proof.
  eexists.
  assert (Hstart : onLoadCallback 7%nat
            ({| images := [0%nat]; callback := None; counter := 0; called := [] |},
             <[0%nat := mkImg (Some String.EmptyString) None]> two_images)
            = Some (?[p'], ?[h'])) by (vm_compute; reflexivity).
  destruct (proj1 (onLoadCallback_sets_sources 7%nat _ _ _ _ Hstart) 0%nat)
    as (i & Hi & Hsrc); [left; reflexivity |].
  exists i. split; [exact Hstart |]. split; [exact Hi | exact Hsrc].
Defined.

(** X15: an image handed to [addImage] with a url and then started by
    [onLoadCallback] ends with that url as its [src] (the url given last, if
    the image was added more than once); [addImage] on a missing image
    throws. *)
Theorem addImage_then_load img url fn p h :
  (h !! img = None -> addImage img url (p, h) = None) /\
  (forall st1 st2,
     addImage img url (p, h) = Some st1 ->
     onLoadCallback fn st1 = Some st2 ->
     images (fst st2) = images p ++ [img] /\
     snd st2 !! img = Some {| img_url := Some url; img_src := Some url |}).
Proof.
  split.
  - intros Hnone. unfold addImage. now rewrite Hnone.
  - intros [p1 h1] [p2 h2] Hadd Hload. cbn [fst snd].
    unfold addImage in Hadd. destruct (h !! img) as [i |] eqn:Hi; [| discriminate].
    injection Hadd as <- <-.
    destruct (onLoadCallback_inv _ _ _ _ _ Hload) as [Hl ->]. cbn [images] in *.
    split; [reflexivity |].
    destruct (load_images_inv _ _ _ Hl) as (Hin & _ & Hurl).
    destruct (Hin img) as (i2 & Hi2 & Hsrc); [apply in_or_app; right; left; reflexivity |].
    destruct (Hurl img _ (lookup_insert_eq _ _ _)) as (i3 & Hi3 & Hu).
    assert (i3 = i2) by congruence. subst i3. cbn in Hu.
    rewrite Hi2. destruct i2 as [u s]. cbn in *. congruence.
Qed.

Lemma addImage_then_load_witness :
  two_images !! 5%nat = None /\
  addImage 5%nat String.EmptyString (Preloader_new, two_images) = None.
Proof.
  split; [reflexivity |].
  exact (proj1 (addImage_then_load 5%nat String.EmptyString 0%nat Preloader_new two_images)
           eq_refl).
Defined.

(** ** More about frames *)

(** What the render pass does to the world. *)
Lemma render_pass_run env f w u w3 :
  render_pass env f w = Some (u, w3) ->
  exists sc,
    heap w !! f = Some sc /\
    canvas w3 = canvas w ++ [CtxSave; CtxRestore] /\
    calls w3 = calls w ++ render_calls (interval_null_or_complete sc) f /\
    heap w3 =
      (if interval_null_or_complete sc then heap w
       else match interval sc with
            | Some i => <[f := set_interval sc (intervalRenderer env f i)]> (heap w)
            | None => heap w
            end).
Proof.
  intros H. unfold render_calls. run_stage; eexists; (split; [reflexivity |]).
  all: match goal with
       | Hg : interval_null_or_complete _ = _ |- _ => rewrite Hg
       end.
  all: match goal with
       | Hi : interval _ = _ |- _ => rewrite ?Hi
       | _ => idtac
       end.
  all: cbn; rewrite <- ?app_assoc; auto.
Qed.

Lemma frame_stages env w g w' :
  game w = Some g ->
  exec (frame env) w = Some w' ->
  exists w2 w3,
    heap w2 = heap_after_inits (inits (calls_since w w')) (heap w) /\
    calls w2 = calls w ++ map OnInitScene (inits (calls_since w w')) /\
    canvas w2 = canvas w /\
    (exists f, render_pass env f w2 = Some (tt, w3) /\
               exists g', game w' = Some g' /\ currentScene g' = Some f) /\
    heap w' = heap w3 /\ canvas w' = canvas w3 /\
    calls w' = calls w3 ++
      (if paused (handler w) then []
       else [RequestAnimFrame
               (JS.double_tilde
                  (FPSMS - inject_Z (Date_now_end env - Date_now_start env)))]).
Proof.
  intros Hg H.
  destruct (frame_inv env w w' H)
    as (e & w1 & f & w2 & w3 & g2 & w5 & H1 & H2 & H3 & Hg3 & H5 & Hw').
  pose proof (resolve_entry_handler _ _ _ _ H1) as (Hh1 & _ & _).
  pose proof (resolve_advance_handler _ _ _ _ _ H2) as (Hh2 & _ & _).
  pose proof (render_pass_inv _ _ _ _ _ H3) as (Hh3 & _ & _ & _ & l & Hl & Hli & _).
  pose proof (update_clock_inv _ _ _ _ H5) as Hclk. cbn in Hclk.
  destruct Hclk as (Hg5 & Hheap5 & Hc5 & _ & Hcv5 & Hpa5 & _).
  assert (Hpa : paused (handler w5) = paused (handler w)) by congruence.
  assert (Hcalls' : calls w' = calls w3 ++
      (if paused (handler w) then []
       else [RequestAnimFrame
               (JS.double_tilde
                  (FPSMS - inject_Z (Date_now_end env - Date_now_start env)))])).
  { rewrite Hw', Hpa. destruct (paused (handler w)); cbn; rewrite Hc5;
      [now rewrite app_nil_r | reflexivity]. }
  assert (Hheap' : heap w' = heap w3).
  { rewrite Hw'. destruct (paused (handler w5)); cbn; exact Hheap5. }
  assert (Hcanvas' : canvas w' = canvas w3).
  { rewrite Hw'. destruct (paused (handler w5)); cbn; exact Hcv5. }
  assert (Hgame' : game w' = Some (set_currentScene g2 f)).
  { rewrite Hw'. destruct (paused (handler w5)); cbn; exact Hg5. }
  assert (Hsince : forall k,
            calls w2 = calls w ++ map OnInitScene k ->
            inits (calls_since w w') = k).
  { intros k Hk.
    rewrite (calls_since_app w w'
               (map OnInitScene k ++ l ++
                (if paused (handler w) then []
                 else [RequestAnimFrame
                         (JS.double_tilde
                            (FPSMS - inject_Z (Date_now_end env - Date_now_start env)))])))
      by (rewrite Hcalls', Hl, Hk; now rewrite <- !app_assoc).
    rewrite !inits_app, Hli.
    assert (Hmap : inits (map OnInitScene k) = k).
    { clear. induction k as [| r k IH]; [reflexivity |]. cbn. f_equal. exact IH. }
    rewrite Hmap. destruct (paused (handler w)); cbn; now rewrite app_nil_r. }
  exists w2, w3.
  assert (Hshape : exists k,
            calls w2 = calls w ++ map OnInitScene k /\
            heap w2 = heap_after_inits k (heap w) /\ canvas w2 = canvas w).
  { destruct (resolve_entry_inv env w g e w1 Hg H1)
      as [(_ & _ & _ & ->) | [(_ & _ & _ & _ & ->) | (_ & _ & ->)]].
    - destruct (resolve_advance_inv env (entered w g 0 e) (set_sceneIndex g 0)
                  e f w2 eq_refl H2)
        as (sc' & _ & [(_ & _ & ->) | (_ & _ & _ & _ & ->)]).
      + exists [e]. cbn. auto.
      + exists [e; f]. cbn. rewrite <- app_assoc. auto.
    - destruct (resolve_advance_inv env (entered w g (-1) e) (set_sceneIndex g (-1))
                  e f w2 eq_refl H2)
        as (sc' & _ & [(_ & _ & ->) | (_ & _ & _ & _ & ->)]).
      + exists [e]. cbn. auto.
      + exists [e; f]. cbn. rewrite <- app_assoc. auto.
    - destruct (resolve_advance_inv env w g e f w2 Hg H2)
        as (sc' & _ & [(_ & _ & ->) | (_ & _ & _ & _ & ->)]).
      + exists []. cbn. rewrite app_nil_r. auto.
      + exists [f]. cbn. auto. }
  destruct Hshape as (k & Hk & Hhk & Hck).
  rewrite (Hsince k Hk).
  split; [exact Hhk |]. split; [exact Hk |]. split; [exact Hck |].
  split; [| auto].
  exists f. split; [exact H3 |]. eexists. split; [exact Hgame' | reflexivity].
Qed.

Lemma heap_after_init_other r h f : r <> f -> heap_after_init r h !! f = h !! f.
Proof.
  intros Hne. unfold heap_after_init.
  destruct (h !! r) as [sc |]; [| reflexivity].
  destruct (interval sc); [| reflexivity].
  now apply lookup_insert_ne.
Qed.

Lemma heap_after_init_same r h sc i :
  h !! r = Some sc -> interval sc = Some i ->
  heap_after_init r h !! r = Some (set_interval sc (Interval_reset i)).
Proof.
  intros Hr Hi. unfold heap_after_init. rewrite Hr, Hi. apply lookup_insert_eq.
Qed.

Lemma heap_after_inits_other : forall l h f,
  ~ In f l -> heap_after_inits l h !! f = h !! f.
Proof.
  induction l as [| r l IH]; intros h f Hnot; [reflexivity |].
  cbn. rewrite IH by (intros Hl; apply Hnot; right; exact Hl).
  apply heap_after_init_other. intros ->. apply Hnot. left. reflexivity.
Qed.

Lemma heap_after_inits_reset : forall l h f sc i,
  h !! f = Some sc -> interval sc = Some i -> In f l ->
  heap_after_inits l h !! f = Some (set_interval sc (Interval_reset i)).
Proof.
  induction l as [| r l IH]; intros h f sc i Hf Hi Hin; [destruct Hin |].
  cbn [heap_after_inits fold_left].
  change (fold_left (fun h r => heap_after_init r h) l (heap_after_init r h))
    with (heap_after_inits l (heap_after_init r h)).
  destruct (decide (r = f)) as [-> | Hne].
  - pose proof (heap_after_init_same f h sc i Hf Hi) as Hreset.
    destruct (in_dec Nat.eq_dec f l) as [Hl | Hl].
    + rewrite (IH _ f _ (Interval_reset i) Hreset eq_refl Hl). reflexivity.
    + rewrite heap_after_inits_other by exact Hl. exact Hreset.
  - destruct Hin as [-> | Hl]; [contradiction |].
    apply IH; [| exact Hi | exact Hl].
    rewrite heap_after_init_other by exact Hne. exact Hf.
Qed.

Lemma count_render_game_app l k :
  count_render_game (l ++ k) = (count_render_game l + count_render_game k)%nat.
Proof. unfold count_render_game. now rewrite List.filter_app, length_app. Qed.

Lemma count_render_game_inits l : count_render_game (map OnInitScene l) = 0%nat.
Proof. induction l as [| r l IH]; [reflexivity | exact IH]. Qed.

Lemma calls_schedules_only (b : bool) (o : Z) :
  (if b then [] else [RequestAnimFrame o])
  = map RequestAnimFrame (schedules (if b then [] else [RequestAnimFrame o])).
Proof. destruct b; reflexivity. Qed.

Section RenderPass.

Variables (env : Env) (w : World) (g : Main) (w' : World).

Hypothesis Hgame : game w = Some g.
Hypothesis Hframe : exec (frame env) w = Some w'.

Lemma frame_calls_shape :
  exists f sc,
    (exists g', game w' = Some g' /\ currentScene g' = Some f) /\
    heap_after_inits (inits (calls_since w w')) (heap w) !! f = Some sc /\
    calls_since w w'
    = map OnInitScene (inits (calls_since w w'))
      ++ render_calls (interval_null_or_complete sc) f
      ++ map RequestAnimFrame (schedules (calls_since w w')) /\
    canvas w' = canvas w ++ [CtxSave; CtxRestore] /\
    heap w' =
      (if interval_null_or_complete sc
       then heap_after_inits (inits (calls_since w w')) (heap w)
       else match interval sc with
            | Some i => <[f := set_interval sc (intervalRenderer env f i)]>
                          (heap_after_inits (inits (calls_since w w')) (heap w))
            | None => heap_after_inits (inits (calls_since w w')) (heap w)
            end).
Proof.
  destruct (frame_stages env w g w' Hgame Hframe)
    as (w2 & w3 & Hh2 & Hc2 & Hcv2 & (f & H3 & Hg') & Hh' & Hcv' & Hc').
  destruct (render_pass_run env f w2 tt w3 H3) as (sc & Hsc & Hcv3 & Hc3 & Hh3).
  exists f, sc. split; [exact Hg' |].
  rewrite <- Hh2. split; [exact Hsc |].
  assert (Hall : calls w' = calls w ++
            (map OnInitScene (inits (calls_since w w'))
             ++ render_calls (interval_null_or_complete sc) f
             ++ (if paused (handler w) then []
                 else [RequestAnimFrame
                         (JS.double_tilde
                            (FPSMS - inject_Z (Date_now_end env
                                               - Date_now_start env)))]))).
  { rewrite Hc', Hc3, Hc2. now rewrite <- !app_assoc. }
  split; [| split; [congruence | congruence]].
  pose proof (calls_since_app w w' _ Hall) as Hsince.
  assert (Hsch : schedules (calls_since w w')
                 = schedules (if paused (handler w) then []
                              else [RequestAnimFrame
                                      (JS.double_tilde
                                         (FPSMS - inject_Z (Date_now_end env
                                                            - Date_now_start env)))])).
  { rewrite Hsince at 1. rewrite !schedules_app.
    assert (Hnone : forall k, schedules (map OnInitScene k) = []).
    { induction k as [| r k IH]; [reflexivity | exact IH]. }
    rewrite Hnone.
    destruct (interval_null_or_complete sc); reflexivity. }
  rewrite Hsch, <- calls_schedules_only. exact Hsince.
Qed.

(** X16: a completed frame brackets its render pass in one [save] /
    [restore] pair and calls the game-level render exactly once, after the
    init hooks of the frame.  On the scene it ends on, as the init hooks
    left it, that call stands between [onBeforeRenderScene] and
    [onRenderScene] when the scene's interval is absent or complete, and
    is followed by the interval renderer otherwise; a scheduling request,
    if any, comes last. *)
Theorem frame_render_pass :
  exists f sc,
    (exists g', game w' = Some g' /\ currentScene g' = Some f) /\
    heap_after_inits (inits (calls_since w w')) (heap w) !! f = Some sc /\
    calls_since w w'
    = map OnInitScene (inits (calls_since w w'))
      ++ (if interval_null_or_complete sc
          then [OnBeforeRenderScene f; OnRenderGame; OnRenderScene f]
          else [OnRenderGame; IntervalRenderer f])
      ++ map RequestAnimFrame (schedules (calls_since w w')) /\
    canvas w' = canvas w ++ [CtxSave; CtxRestore] /\
    count_render_game (calls_since w w') = 1%nat.
Proof.
  destruct frame_calls_shape as (f & sc & Hg' & Hsc & Hshape & Hcanvas & _).
  unfold render_calls in Hshape.
  exists f, sc.
  split; [exact Hg' |]. split; [exact Hsc |]. split; [exact Hshape |].
  split; [exact Hcanvas |].
  rewrite Hshape, !count_render_game_app, count_render_game_inits.
  assert (Hs : forall k, count_render_game (map RequestAnimFrame k) = 0%nat).
  { induction k as [| o k IH]; [reflexivity | exact IH]. }
  rewrite Hs. destruct (interval_null_or_complete sc); reflexivity.
Qed.

(** X17: when the frame ends on a scene it has just entered and that scene
    has an interval, the frame renders through the interval renderer, not
    through [onRenderScene], and the renderer is handed the interval as
    reset by the init hook (frame counter 0, not complete). *)
Theorem entered_scene_renders_interval f sc i :
  (exists g', game w' = Some g' /\ currentScene g' = Some f) ->
  In f (inits (calls_since w w')) ->
  heap w !! f = Some sc -> interval sc = Some i ->
  In (IntervalRenderer f) (calls_since w w') /\
  ~ In (OnRenderScene f) (calls_since w w') /\
  heap w' !! f = Some (set_interval sc (intervalRenderer env f (Interval_reset i))).
Proof.
  intros (g1 & Hg1 & Hcur1) Hin Hsc Hi.
  destruct frame_calls_shape as (f' & sc' & (g2 & Hg2 & Hcur2) & Hsc' & Hshape & _ & Hheap).
  assert (f' = f) by congruence. subst f'.
  rewrite (heap_after_inits_reset _ _ f sc i Hsc Hi Hin) in Hsc'.
  injection Hsc' as <-. cbn in Hshape, Hheap.
  split; [| split].
  - rewrite Hshape. apply in_or_app. right. right. left. reflexivity.
  - rewrite Hshape. intros Hbad.
    apply in_app_or in Hbad as [Hbad | Hbad].
    + apply in_map_iff in Hbad as (r & Hr & _). discriminate.
    + destruct Hbad as [Hbad | [Hbad | Hbad]]; try discriminate.
      apply in_map_iff in Hbad as (o & Ho & _). discriminate.
  - rewrite Hheap. rewrite lookup_insert_eq. reflexivity.
Qed.

End RenderPass.

Lemma frame_render_pass_witness :
  exists w',
    game (gated_world 1000) = Some
      {| scenes := [0%nat; 1%nat]; endScene := Some 2%nat;
         currentScene := Some 0%nat; sceneIndex := 0 |} /\
    exec (frame (Env_default 1016 1017)) (gated_world 1000) = Some w' /\
    calls_since (gated_world 1000) w'
    = [OnRenderGame; IntervalRenderer 0%nat; RequestAnimFrame 15] /\
    canvas w' = canvas (gated_world 1000) ++ [CtxSave; CtxRestore] /\
    count_render_game (calls_since (gated_world 1000) w') = 1%nat.
Proof.
  eexists.
  assert (Hrun : exec (frame (Env_default 1016 1017)) (gated_world 1000) = Some ?[w'])
    by (vm_compute; reflexivity).
  destruct (frame_render_pass (Env_default 1016 1017) (gated_world 1000) _ _ eq_refl Hrun)
    as (f & sc & _ & _ & _ & Hcanvas & Hcount).
  split; [reflexivity |]. split; [exact Hrun |]. split; [vm_compute; reflexivity |].
  split; [exact Hcanvas | exact Hcount].
Defined.

Lemma entered_scene_renders_interval_witness :
  exists w',
    exec (frame (finishing 1016 (fun _ => false))) (entering_world 1000) = Some w' /\
    In 0%nat (inits (calls_since (entering_world 1000) w')) /\
    In (IntervalRenderer 0%nat) (calls_since (entering_world 1000) w') /\
    heap w' !! 0%nat
    = Some {| playable := true;
              interval := Some {| label := String.EmptyString; framecounter := 1;
                                  complete := true |} |}.
Proof.
  eexists.
  assert (Hrun : exec (frame (finishing 1016 (fun _ => false))) (entering_world 1000)
                 = Some ?[w']) by (vm_compute; reflexivity).
  match type of Hrun with
  | _ = Some ?W =>
      assert (Hin : In 0%nat (inits (calls_since (entering_world 1000) W)))
        by (left; reflexivity)
  end.
  destruct (entered_scene_renders_interval (finishing 1016 (fun _ => false))
              (entering_world 1000) _ _ eq_refl Hrun 0%nat (timed_scene true) _
              (ex_intro _ _ (conj eq_refl eq_refl)) Hin eq_refl eq_refl)
    as (Hcall & _ & Hheap).
  split; [exact Hrun |]. split; [exact Hin |]. split; [exact Hcall | exact Hheap].
Defined.

Section IntervalCompletion.

Variables (env1 : Env) (w : World) (g : Main) (c : SceneRef) (sc : Scene) (i : Interval).

Hypothesis Hgame : game w = Some g.
Hypothesis Hcurrent : currentScene g = Some c.
Hypothesis Hscene : heap w !! c = Some sc.
Hypothesis Hinterval : interval sc = Some i.
Hypothesis Hrunning : complete i = false.
Hypothesis Hover1 : isGameOver env1 = false.
Hypothesis Hfinish : complete (intervalRenderer env1 c i) = true.

(** X18: completion declared by the interval renderer is acted on in the
    following frame, never in the frame that declares it: that frame stays
    on the scene, and the next one (game not over, scene complete) moves to
    the scene at the next index and invokes its init hook. *)
Theorem interval_completion_next_frame :
  exists w1,
    exec (frame env1) w = Some w1 /\ game w1 = Some g /\
    inits (calls_since w w1) = [] /\
    heap w1 !! c = Some (set_interval sc (intervalRenderer env1 c i)) /\
    forall env2 w2,
      isGameOver env2 = false -> isComplete env2 c = true ->
      exec (frame env2) w1 = Some w2 ->
      exists f,
        scenes g !! Z.to_nat (next_index g) = Some f /\
        inits (calls_since w1 w2) = [f] /\
        game w2 = Some {| scenes := scenes g; endScene := endScene g;
                          currentScene := Some f; sceneIndex := next_index g |}.
Proof.
  destruct (gated_frame_runs env1 w g c sc i Hgame Hcurrent Hover1 Hscene
              Hinterval Hrunning) as (w1 & Hw1).
  assert (Hgate : interval_null_or_complete sc = false).
  { unfold interval_null_or_complete. now rewrite Hinterval. }
  destruct (frame_transition env1 w g w1 Hgame Hw1) as (f & idx & Htr & Hg1).
  destruct (transition_current _ _ _ _ _ _ c sc Htr Hcurrent Hover1 Hscene)
    as [(_ & Hl & -> & ->) | (Hopen & _)];
    [| rewrite Hgate in Hopen; discriminate].
  assert (Hg1' : game w1 = Some g).
  { rewrite Hg1. destruct g; cbn in *. congruence. }
  destruct (frame_calls_shape env1 w g w1 Hgame Hw1)
    as (f' & sc' & (g1 & Hg1'' & Hcur1) & Hsc' & _ & _ & Hheap).
  assert (g1 = g) by congruence. subst g1.
  assert (f' = c) by congruence. subst f'.
  rewrite Hl in Hsc', Hheap. cbn in Hsc', Hheap.
  assert (sc' = sc) by congruence. subst sc'.
  rewrite Hgate, Hinterval in Hheap.
  assert (Hc1 : heap w1 !! c = Some (set_interval sc (intervalRenderer env1 c i))).
  { rewrite Hheap. apply lookup_insert_eq. }
  exists w1. split; [exact Hw1 |]. split; [exact Hg1' |]. split; [exact Hl |].
  split; [exact Hc1 |].
  intros env2 w2 Hover2 Hdone2 Hw2.
  destruct (frame_transition env2 w1 g w2 Hg1' Hw2) as (f2 & idx2 & Htr2 & Hg2).
  destruct (transition_current _ _ _ _ _ _ c _ Htr2 Hcurrent Hover2 Hc1)
    as [(Hshut & _) | (_ & Hl2 & -> & Hf2)].
  - unfold interval_null_or_complete in Hshut. cbn in Hshut.
    rewrite Hfinish, Hdone2 in Hshut. discriminate.
  - exists f2. auto.
Qed.

End IntervalCompletion.

Lemma interval_completion_next_frame_witness :
  exists w1 w2,
    exec (frame (finishing 1016 (fun _ => true))) (gated_world 1000) = Some w1 /\
    inits (calls_since (gated_world 1000) w1) = [] /\
    exec (frame (finishing 1032 (fun _ => true))) w1 = Some w2 /\
    inits (calls_since w1 w2) = [1%nat].
Proof.
  destruct (interval_completion_next_frame (finishing 1016 (fun _ => true))
              (gated_world 1000) _ 0%nat (timed_scene false) _
              eq_refl eq_refl eq_refl eq_refl eq_refl eq_refl eq_refl)
    as (w1 & Hw1 & Hg1 & Hl1 & Hc1 & Hnext).
  assert (Hwf1 : well_formed w1 = true).
  { destruct (frame_total (finishing 1016 (fun _ => true)) (gated_world 1000) eq_refl)
      as (w1' & Hw1' & Hwf). congruence. }
  destruct (frame_total (finishing 1032 (fun _ => true)) w1 Hwf1) as (w2 & Hw2 & _).
  destruct (Hnext (finishing 1032 (fun _ => true)) w2 eq_refl eq_refl Hw2)
    as (f & Hf & Hl2 & _).
  exists w1, w2. split; [exact Hw1 |]. split; [exact Hl1 |]. split; [exact Hw2 |].
  cbn in Hf. injection Hf as <-. exact Hl2.
Defined.

(** ** The loop as a whole *)

(** X20: a frame throws when it has to enter a scene that is not there: the
    first frame of a game without scenes, and a game-over frame of a game
    without an end scene. *)
Theorem frame_configuration_errors env w g :
  game w = Some g ->
  (currentScene g = None -> scenes g = [] -> exec (frame env) w = None) /\
  (currentScene g <> None -> isGameOver env = true -> endScene g = None ->
   exec (frame env) w = None).
Proof.
  intros Hg. split.
  - intros Hcur Hs. unfold_stage.
    repeat (cbn; rewrite ?Hg, ?Hcur, ?Hs). reflexivity.
  - intros Hcur Hover Hend.
    destruct (currentScene g) as [c |] eqn:Hc; [| congruence].
    unfold_stage. repeat (cbn; rewrite ?Hg, ?Hc, ?Hover, ?Hend). reflexivity.
Qed.

Lemma frame_configuration_errors_witness :
  game (world_of (clock_at 0) (Main_new [] None) demo_heap) = Some (Main_new [] None) /\
  exec (frame (Env_default 16 16)) (world_of (clock_at 0) (Main_new [] None) demo_heap)
  = None.
Proof.
  split; [reflexivity |].
  exact (proj1 (frame_configuration_errors (Env_default 16 16)
                  (world_of (clock_at 0) (Main_new [] None) demo_heap)
                  (Main_new [] None) eq_refl) eq_refl eq_refl).
Defined.

(** X21: before a game is registered, a frame throws, and with it a
    scheduled callback, [start] with anything but a game, and [pause()] on a
    paused handler; [pause()] on a running handler only sets the flag. *)
Theorem no_game_registered now env w :
  game w = None ->
  exec (frame env) w = None /\
  exec (start now None env) w = None /\
  exec (tick env) w = None /\
  (paused (handler w) = true -> exec (pause now env) w = None) /\
  (paused (handler w) = false -> exec (pause now env) w = Some (suspended w)).
Proof.
  intros Hg.
  assert (Hframe : forall w0, game w0 = None -> exec (frame env) w0 = None).
  { intros w0 H0. unfold_stage. cbn. rewrite H0. reflexivity. }
  split; [now apply Hframe |]. split; [| split; [| split]].
  - rewrite start_callback. now apply Hframe.
  - rewrite tick_frame. now apply Hframe.
  - intros Hp. rewrite pause_paused by exact Hp. now apply Hframe.
  - intros Hp. now apply pause_running.
Qed.

Lemma no_game_registered_witness :
  game (no_game_world true) = None /\
  exec (pause 5 (Env_default 5 5)) (no_game_world true) = None.
Proof.
  split; [reflexivity |].
  exact (proj1 (proj2 (proj2 (proj2
           (no_game_registered 5 (Env_default 5 5) (no_game_world true) eq_refl))))
           eq_refl).
Defined.

(** ** The scene index and the current scene *)

Lemma coherent_inv g :
  coherent g = true ->
  match currentScene g with
  | None => sceneIndex g = -1
  | Some c =>
      (sceneIndex g = -1 /\ endScene g = Some c) \/
      (0 <= sceneIndex g /\ scenes g !! Z.to_nat (sceneIndex g) = Some c)
  end.
Proof.
  unfold coherent. destruct (currentScene g) as [c |].
  - rewrite orb_true_iff, !andb_true_iff, !bool_decide_eq_true, Z.eqb_eq, Z.leb_le.
    tauto.
  - apply Z.eqb_eq.
Qed.

Lemma coherent_intro g c :
  currentScene g = Some c ->
  (sceneIndex g = -1 /\ endScene g = Some c) \/
  (0 <= sceneIndex g /\ scenes g !! Z.to_nat (sceneIndex g) = Some c) ->
  coherent g = true.
Proof.
  intros Hc H. unfold coherent. rewrite Hc.
  rewrite orb_true_iff, !andb_true_iff, !bool_decide_eq_true, Z.eqb_eq, Z.leb_le.
  tauto.
Qed.

Lemma transition_coherent env g h l f i :
  transition env g h l f i -> coherent g = true ->
  coherent {| scenes := scenes g; endScene := endScene g;
              currentScene := Some f; sceneIndex := i |} = true.
Proof.
  intros Htr Hcoh. apply coherent_inv in Hcoh.
  apply (coherent_intro {| scenes := scenes g; endScene := endScene g;
                           currentScene := Some f; sceneIndex := i |} f eq_refl). cbn.
  destruct Htr as [c sc Hc Hover Hsc Hgate | c sc f Hc Hover Hsc Hgate Hf
                  | j e sc Hent Hsc Hstay | j e sc f Hent Hsc Hnone Hdone Hf].
  - rewrite Hc in Hcoh. exact Hcoh.
  - right. split; [| exact Hf]. rewrite Hc in Hcoh. unfold next_index.
    destruct (sceneIndex g + 1 <? Z.of_nat (length (scenes g))); lia.
  - destruct Hent as [e _ He | e _ _ He]; [right | left]; auto.
    split; [lia | exact He].
  - right. split; [| exact Hf]. unfold next_index. cbn.
    destruct Hent; cbn;
      match goal with
      | |- context [?a <? ?b] => destruct (a <? b)
      end; lia.
Qed.

Lemma step_coherent w w' g :
  step w w' -> game w = Some g -> coherent g = true ->
  exists g', game w' = Some g' /\ coherent g' = true.
Proof.
  assert (Hframe : forall env w0 w1,
            game w0 = Some g -> exec (frame env) w0 = Some w1 -> coherent g = true ->
            exists g', game w1 = Some g' /\ coherent g' = true).
  { intros env w0 w1 Hg H Hcoh.
    destruct (frame_transition env w0 g w1 Hg H) as (f & i & Htr & Hg').
    eexists. split; [exact Hg' |]. eapply transition_coherent; eassumption. }
  intros [env w0 w1 _ Htick | now env w0 w1 Hpause] Hg Hcoh.
  - rewrite tick_frame in Htick. eapply Hframe; [| exact Htick | exact Hcoh]. exact Hg.
  - destruct (paused (handler w0)) eqn:Hp.
    + rewrite pause_paused in Hpause by exact Hp.
      eapply Hframe; [| exact Hpause | exact Hcoh]. exact Hg.
    + rewrite pause_running in Hpause by exact Hp. injection Hpause as <-. eauto.
Qed.

(** X22: the scene index always tells where the current scene stands.  From
    a game that has no current scene yet (index -1), through any sequence of
    frames and [pause()] calls: while the index is -1 the current scene, if
    any, is the end scene, and otherwise it is the scene at the index -- the
    one the key handlers address. *)
Theorem scene_index_names_current_scene w w' g :
  game w = Some g -> coherent g = true -> rtc step w w' ->
  exists g',
    game w' = Some g' /\ coherent g' = true /\
    (forall c, currentScene g' = Some c -> sceneIndex g' = -1 ->
               endScene g' = Some c) /\
    (forall c, currentScene g' = Some c -> sceneIndex g' <> -1 ->
               0 <= sceneIndex g' /\
               scenes g' !! Z.to_nat (sceneIndex g') = Some c).
Proof.
  intros Hg Hcoh Hreach.
  assert (Hinv : exists g', game w' = Some g' /\ coherent g' = true).
  { revert g Hg Hcoh.
    induction Hreach as [w | w w1 w2 Hstep _ IH]; intros g Hg Hcoh; [eauto |].
    destruct (step_coherent _ _ _ Hstep Hg Hcoh) as (g1 & Hg1 & Hcoh1).
    exact (IH g1 Hg1 Hcoh1). }
  destruct Hinv as (g' & Hg' & Hcoh').
  exists g'. split; [exact Hg' |]. split; [exact Hcoh' |].
  apply coherent_inv in Hcoh'.
  split; intros c Hc Hidx; rewrite Hc in Hcoh'; destruct Hcoh' as [[? ?] | [? ?]];
    try assumption; try lia; auto.
Qed.

Lemma scene_index_names_current_scene_witness :
  exists w' g',
    coherent demo_game = true /\
    step (demo_world 1000 None (-1)) w' /\
    game w' = Some g' /\ coherent g' = true.
Proof.
  assert (Hrun : exec (tick (answers 1016 false (fun _ => true)))
                   (demo_world 1000 None (-1)) = Some ?[w'])
    by (vm_compute; reflexivity).
  match type of Hrun with
  | _ = Some ?W =>
      assert (Hstep : step (demo_world 1000 None (-1)) W)
        by (eapply step_tick; [cbn; lia | exact Hrun]);
      destruct (scene_index_names_current_scene (demo_world 1000 None (-1)) W demo_game
                  eq_refl eq_refl (rtc_once _ _ Hstep)) as (g' & Hg' & Hcoh & _);
      exists W, g'
  end.
  split; [reflexivity |]. split; [exact Hstep |]. split; [exact Hg' | exact Hcoh].
Defined.

(** ** The measured frame rate and the scheduling hint *)

Lemma double_tilde_fps e :
  e <> 0 ->
  JS.double_tilde (1000 / inject_Z e) = Z.quot 1000 e /\
  - 1000 <= Z.quot 1000 e <= 1000 /\
  (0 < e -> 0 <= Z.quot 1000 e) /\
  (1000 < e -> Z.quot 1000 e = 0).
Proof.
  intros He.
  assert (Hbound : - 1000 <= Z.quot 1000 e <= 1000 /\
                   (0 < e -> 0 <= Z.quot 1000 e) /\
                   (1000 < e -> Z.quot 1000 e = 0)).
  { destruct (Z.lt_trichotomy e 0) as [Hneg | [Hz | Hpos]]; [| contradiction |].
    - replace e with (- (- e)) by lia. rewrite Z.quot_opp_r by lia.
      rewrite Z.quot_div_nonneg by lia.
      pose proof (Z.div_pos 1000 (- e) ltac:(lia) ltac:(lia)).
      pose proof (Z.div_le_upper_bound 1000 (- e) 1000 ltac:(lia) ltac:(nia)).
      lia.
    - rewrite Z.quot_div_nonneg by lia.
      pose proof (Z.div_pos 1000 e ltac:(lia) ltac:(lia)).
      pose proof (Z.div_le_upper_bound 1000 e 1000 ltac:(lia) ltac:(nia)).
      split; [lia |]. split; [lia |].
      intros Hbig. apply Z.div_small. lia. }
  split; [| exact Hbound].
  unfold JS.double_tilde, JS.ToInt32.
  assert (Htrunc : JS.Qtrunc (1000 / inject_Z e) = Z.quot 1000 e).
  { destruct e as [| p | p]; [contradiction | reflexivity |].
    unfold JS.Qtrunc. cbn.
    change (1000 * -1) with (Z.opp 1000). change (1 * p)%positive with p.
    change (Z.neg p) with (Z.opp (Z.pos p)).
    rewrite Z.quot_opp_l, Z.quot_opp_r by lia. reflexivity. }
  rewrite Htrunc. apply wrap32_small. lia.
Qed.

(** X23: the measured frame rate is refreshed on every 16th frame only; it is
    then 1000 divided by the time since the previous frame started (1 ms
    when that time is 0), rounded toward zero, so it lies between 0 and 1000
    when the clock has not gone back and is 0 when more than a second has
    passed.  Every frame adds one to the frame counter. *)
Theorem frame_maxfps env w w' :
  exec (frame env) w = Some w' ->
  let e := elapsed env w in
  let e' := if e =? 0 then 1 else e in
  frameCount (handler w') = frameCount (handler w) + 1 /\
  (Z.rem (frameCount (handler w) + 1) 16 <> 0 ->
     maxfps (handler w') = maxfps (handler w)) /\
  (Z.rem (frameCount (handler w) + 1) 16 = 0 ->
     maxfps (handler w') = Z.quot 1000 e' /\
     (0 <= e -> 0 <= maxfps (handler w') <= 1000) /\
     (1000 < e -> maxfps (handler w') = 0)).
Proof.
  intros H.
  destruct (frame_summary env w w' H)
    as (e0 & w1 & f & w2 & g2 & l & _ & _ & _ & _ & _ & _ & _ & _ & _ & Hclk).
  apply update_clock_inv in Hclk. cbn in Hclk.
  destruct Hclk as (_ & _ & _ & _ & _ & _ & _ & _ & Hcount & _ & _ & Hfps).
  unfold elapsed. cbn zeta.
  split; [exact Hcount |]. split.
  - intros Hrem. rewrite Hfps.
    destruct (Z.eqb_spec (Z.rem (frameCount (handler w) + 1) 16) 0); [contradiction |].
    reflexivity.
  - intros Hrem. rewrite Hfps, Hrem. cbn [Z.eqb].
    set (e := Date_now_start env - frameStart (handler w)).
    assert (He' : (if e =? 0 then 1 else e) <> 0) by (destruct (Z.eqb_spec e 0); lia).
    destruct (double_tilde_fps _ He') as (Heq & Hb & Hpos & Hbig).
    rewrite Heq. split; [reflexivity |].
    destruct (Z.eqb_spec e 0) as [Hz | Hnz]; split; intros;
      first [ lia | split; [apply Hpos; lia | lia] | apply Hbig; lia ].
Qed.

Lemma frame_maxfps_witness :
  exists w',
    exec (frame (Env_default 1020 1021))
      (world_of (set_frameCount (clock_at 1000) 15) demo_game demo_heap) = Some w' /\
    Z.rem (frameCount (handler (world_of (set_frameCount (clock_at 1000) 15)
                                  demo_game demo_heap)) + 1) 16 = 0 /\
    maxfps (handler w') = 50.
Proof.
  eexists.
  assert (Hrun : exec (frame (Env_default 1020 1021))
                   (world_of (set_frameCount (clock_at 1000) 15) demo_game demo_heap)
                 = Some ?[w']) by (vm_compute; reflexivity).
  split; [exact Hrun |]. split; [reflexivity |].
  exact (proj1 (proj2 (proj2 (frame_maxfps _ _ _ Hrun)) eq_refl)).
Defined.

Lemma double_tilde_offset d :
  - 2 ^ 30 <= d <= 2 ^ 30 ->
  JS.double_tilde (FPSMS - inject_Z d) = if d <=? 16 then 16 - d else 17 - d.
Proof.
  intros Hd. unfold JS.double_tilde, JS.ToInt32.
  assert (Htrunc : JS.Qtrunc (FPSMS - inject_Z d) = Z.quot (1000 - 60 * d) 60).
  { unfold JS.Qtrunc, FPSMS. cbn. f_equal. lia. }
  rewrite Htrunc.
  destruct (Z.leb_spec d 16) as [Hle | Hgt].
  - rewrite Z.quot_div_nonneg by lia.
    rewrite <- (Z.div_unique (1000 - 60 * d) 60 (16 - d) 40) by lia.
    apply wrap32_small. lia.
  - replace (1000 - 60 * d) with (- (60 * d - 1000)) by lia.
    rewrite Z.quot_opp_l by lia. rewrite Z.quot_div_nonneg by lia.
    rewrite <- (Z.div_unique (60 * d - 1000) 60 (d - 17) 20) by lia.
    rewrite wrap32_small by lia. lia.
Qed.

Lemma frame_schedules env w w' :
  exec (frame env) w = Some w' ->
  schedules (calls_since w w')
  = if paused (handler w) then []
    else [JS.double_tilde (FPSMS - inject_Z (Date_now_end env - Date_now_start env))].
Proof.
  intros H.
  destruct (frame_summary env w w' H)
    as (e & w1 & f & w2 & g2 & l & H1 & H2 & _ & _ & _ & Hcalls & _ & Hsch & _).
  destruct (resolve_entry_inv_calls env w e w1 H1) as (k1 & Hk1 & Hs1).
  destruct (resolve_advance_inv_calls env e w1 f w2 H2) as (k2 & Hk2 & Hs2).
  rewrite (calls_since_app w w' (k1 ++ k2 ++ l))
    by (rewrite Hcalls, Hk2, Hk1; now rewrite <- !app_assoc).
  rewrite !schedules_app, Hs1, Hs2. exact Hsch.
Qed.

(** X24: a frame of a game that is not paused makes exactly one scheduling
    request, a paused one none.  The delay it passes, for a frame that took
    [d] ms, is [16 - d] up to 16 ms and [17 - d] from 17 ms on: it is 0 for
    both 16 and 17 ms and negative for longer frames. *)
Theorem frame_schedule_offset env w w' :
  exec (frame env) w = Some w' ->
  let d := Date_now_end env - Date_now_start env in
  (paused (handler w) = true -> schedules (calls_since w w') = []) /\
  (paused (handler w) = false ->
     schedules (calls_since w w') = [JS.double_tilde (FPSMS - inject_Z d)]) /\
  (- 2 ^ 30 <= d <= 2 ^ 30 ->
     JS.double_tilde (FPSMS - inject_Z d) = if d <=? 16 then 16 - d else 17 - d).
Proof.
  intros H. cbn zeta. pose proof (frame_schedules env w w' H) as Hs.
  split; [| split].
  - intros Hp. now rewrite Hp in Hs.
  - intros Hp. now rewrite Hp in Hs.
  - apply double_tilde_offset.
Qed.

Lemma frame_schedule_offset_witness :
  exists w',
    exec (frame (Env_default 1016 1036)) (demo_world 1000 (Some 0%nat) 0) = Some w' /\
    paused (handler (demo_world 1000 (Some 0%nat) 0)) = false /\
    schedules (calls_since (demo_world 1000 (Some 0%nat) 0) w') = [-3].
Proof.
  eexists.
  assert (Hrun : exec (frame (Env_default 1016 1036)) (demo_world 1000 (Some 0%nat) 0)
                 = Some ?[w']) by (vm_compute; reflexivity).
  split; [exact Hrun |]. split; [reflexivity |].
  rewrite (proj1 (proj2 (frame_schedule_offset _ _ _ Hrun)) eq_refl).
  rewrite (proj2 (proj2 (frame_schedule_offset _ _ _ Hrun))) by (cbn; lia).
  reflexivity.
Defined.

(** ** Pending callbacks *)

Lemma frame_pending env w w' :
  exec (frame env) w = Some w' ->
  pending w' = (if paused (handler w) then pending w else S (pending w)) /\
  paused (handler w') = paused (handler w).
Proof.
  intros H.
  destruct (frame_summary env w w' H)
    as (e & w1 & f & w2 & g2 & l & _ & _ & _ & _ & _ & _ & _ & _ & Hpend & Hclk).
  apply update_clock_inv in Hclk. cbn in Hclk.
  destruct Hclk as (_ & _ & _ & _ & _ & Hpa & _). auto.
Qed.

Section PendingCallbacks.

Variable w : World.

Hypothesis Hrunning : paused (handler w) = false.

(** X25: while the game runs, each callback that fires schedules its
    successor, so the number of pending callbacks stays as it is.  Pausing
    and resuming before the pending callback has fired leaves one callback
    more than before (two loops run from then on); if the pending callback
    fires during the pause, resuming brings the number back to what it
    was. *)
Theorem pending_callbacks :
  (forall env w',
     (0 < pending w)%nat -> exec (tick env) w = Some w' ->
     pending w' = pending w /\ paused (handler w') = false) /\
  (forall t1 env1 t2 env2 w1 w2,
     exec (pause t1 env1) w = Some w1 -> exec (pause t2 env2) w1 = Some w2 ->
     pending w2 = S (pending w) /\ paused (handler w2) = false) /\
  (forall t1 env1 env t2 env2 w1 w1' w2,
     (0 < pending w)%nat ->
     exec (pause t1 env1) w = Some w1 -> exec (tick env) w1 = Some w1' ->
     exec (pause t2 env2) w1' = Some w2 ->
     pending w1' = Nat.pred (pending w) /\ pending w2 = pending w).
Proof.
  split; [| split].
  - intros env w' Hpos H. rewrite tick_frame in H.
    destruct (frame_pending _ _ _ H) as [Hp Hpa]. cbn in Hp, Hpa.
    rewrite Hrunning in Hp, Hpa. split; [lia | exact Hpa].
  - intros t1 env1 t2 env2 w1 w2 H1 H2.
    rewrite pause_running in H1 by exact Hrunning. injection H1 as <-.
    rewrite pause_paused in H2 by reflexivity.
    destruct (frame_pending _ _ _ H2) as [Hp Hpa]. cbn in Hp, Hpa. auto.
  - intros t1 env1 env t2 env2 w1 w1' w2 Hpos H1 Ht H2.
    rewrite pause_running in H1 by exact Hrunning. injection H1 as <-.
    rewrite tick_frame in Ht.
    destruct (frame_pending _ _ _ Ht) as [Hp Hpa]. cbn in Hp, Hpa.
    rewrite pause_paused in H2 by exact Hpa.
    destruct (frame_pending _ _ _ H2) as [Hp2 _]. cbn in Hp2.
    split; [exact Hp | lia].
Qed.

End PendingCallbacks.

Lemma pending_callbacks_witness :
  exists w1 w2,
    paused (handler (demo_world 1000 (Some 0%nat) 0)) = false /\
    exec (pause 1005 (Env_default 1005 1005)) (demo_world 1000 (Some 0%nat) 0) = Some w1 /\
    exec (pause 1010 (Env_default 1010 1011)) w1 = Some w2 /\
    pending w2 = 2%nat.
Proof.
  assert (Hrun1 : { w1 | exec (pause 1005 (Env_default 1005 1005))
                           (demo_world 1000 (Some 0%nat) 0) = Some w1 })
    by (eexists; vm_compute; reflexivity).
  destruct Hrun1 as [w1 Hrun1].
  assert (Hrun2 : { w2 | exec (pause 1010 (Env_default 1010 1011)) w1 = Some w2 }).
  { rewrite pause_running in Hrun1 by reflexivity. injection Hrun1 as <-.
    eexists; vm_compute; reflexivity. }
  destruct Hrun2 as [w2 Hrun2].
  exists w1, w2.
  split; [reflexivity |]. split; [exact Hrun1 |]. split; [exact Hrun2 |].
  exact (proj1 (proj1 (proj2 (pending_callbacks (demo_world 1000 (Some 0%nat) 0) eq_refl))
                  _ _ _ _ _ _ Hrun1 Hrun2)).
Defined.

(** ** Starting a game *)

Lemma start_game now g env w :
  exec (start now (Some g) env) w = exec (frame env) (started w g now).
Proof.
  unfold exec, start, bind, put_game, get_handler, put_handler. reflexivity.
Qed.

(** X26: [start(game)] registers the game, primes the clock and runs a
    frame at once: the first [frameMultipler] is fixed by the time between
    the two clock readings of the call, whatever the clock held before, and
    a game that has no current scene yet enters its scene 0 first. *)
Theorem start_runs_first_frame now g env w w' :
  exec (start now (Some g) env) w = Some w' ->
  let e := Date_now_start env - now in
  frameMultipler (handler w') = (inject_Z (if e =? 0 then 1 else e) / FPSMS)%Q /\
  frameStart (handler w') = Date_now_start env /\
  (exists g', game w' = Some g' /\ scenes g' = scenes g /\ endScene g' = endScene g) /\
  (currentScene g = None ->
     exists e0, scenes g !! 0%nat = Some e0 /\
                head (inits (calls_since w w')) = Some e0).
Proof.
  intros H. rewrite start_game in H. cbn zeta.
  destruct (frame_summary env _ w' H)
    as (e & w1 & f & w2 & g2 & l & _ & _ & _ & _ & _ & _ & _ & _ & _ & Hclk).
  apply update_clock_inv in Hclk. cbn in Hclk.
  destruct Hclk as (_ & _ & _ & _ & _ & _ & _ & _ & _ & Hmul & Hstart & _).
  destruct (frame_transition env (started w g now) g w' eq_refl H)
    as (f' & i & Htr & Hg').
  split; [exact Hmul |]. split; [exact Hstart |]. split.
  - eexists. split; [exact Hg' |]. split; reflexivity.
  - intros Hcur.
    destruct (transition_entry _ _ _ _ _ _ Htr (or_introl Hcur))
      as (j & e0 & sc & Hent & _ & Hcases).
    destruct Hent as [e0 _ He0 | e0 Hne _ _]; [| congruence].
    exists e0. split; [exact He0 |].
    change (calls_since w w') with (calls_since (started w g now) w').
    destruct Hcases as [(_ & -> & _) | (_ & _ & -> & _)]; reflexivity.
Qed.

Lemma start_runs_first_frame_witness :
  exists w',
    exec (start 5000 (Some demo_game) (Env_default 5000 5001))
      (World_fresh) = Some w' /\
    (frameMultipler (handler w') == 60 # 1000)%Q /\
    head (inits (calls_since World_fresh w')) = Some 0%nat.
Proof.
  eexists.
  assert (Hrun : exec (start 5000 (Some demo_game) (Env_default 5000 5001)) World_fresh
                 = Some ?[w']) by (vm_compute; reflexivity).
  destruct (start_runs_first_frame _ _ _ _ _ Hrun) as (Hmul & _ & _ & Hfirst).
  split; [exact Hrun |]. split.
  - rewrite Hmul. reflexivity.
  - destruct (Hfirst eq_refl) as (e0 & He0 & Hhead).
    cbn in He0. injection He0 as <-. exact Hhead.
Defined.
